(** * A Chord ring node (server.ts): identifiers, lookup, stabilization, routing

    Shallow embedding of [server.ts].  JavaScript [bigint] values are [Z];
    strings are [string] (their UTF-8 bytes); the [Node] class is a record;
    the processes of a ring are a finite map from listen address to node
    state; asynchronous methods are computations in a state-and-error monad
    over that map, which also logs every request sent, with fuel for the
    one unbounded loop.  The width [m] is an integer, as [BigInt(m)]
    requires.  A method runs to its end before another starts. *)

From Stdlib Require Import ZArith List Lia Bool String Ascii.
From Stdlib Require Import DecimalString DecimalZ DecimalPos QArith Qround.
From stdpp Require Import base option list strings gmap.

Local Open Scope string_scope.
Local Open Scope Z_scope.

(** ** SHA-1 (FIPS 180-4)

    [crypto.createHash('sha1').update(str).digest()] of Node.js.  The
    library is not part of the repository; it is written out here from the
    standard, on bytes as [Z] in [0, 256) and 32-bit words as [Z]. *)
Module SHA1.

Definition w32 (x : Z) : Z := x mod 2 ^ 32.

Definition rotl (n x : Z) : Z :=
  w32 (Z.lor (Z.shiftl x n) (Z.shiftr x (32 - n))).

Definition add32 (x y : Z) : Z := w32 (x + y).

Definition not32 (x : Z) : Z := 2 ^ 32 - 1 - x.

(** Padding: one [0x80], zeros up to 56 mod 64, the bit length on 8 bytes. *)
Definition be_bytes (n : nat) (x : Z) : list Z :=
  map (fun i => (x / 2 ^ (8 * Z.of_nat i)) mod 256) (rev (seq 0 n)).

Definition pad (msg : list Z) : list Z :=
  let len := Z.of_nat (length msg) in
  let zeros := Z.to_nat ((55 - len) mod 64) in
  msg ++ 128 :: repeat 0 zeros ++ be_bytes 8 (8 * len).

Definition be_word (bs : list Z) : Z :=
  fold_left (fun acc b => acc * 256 + b) bs 0.

Fixpoint words (n : nat) (bs : list Z) : list Z :=
  match n with
  | O => []
  | S n' => be_word (take 4 bs) :: words n' (drop 4 bs)
  end.

(** Message schedule; [ws] holds the words computed so far, latest first. *)
Fixpoint schedule (n : nat) (ws : list Z) : list Z :=
  match n with
  | O => ws
  | S n' =>
      let x := Z.lxor (Z.lxor (nth 2 ws 0) (nth 7 ws 0))
                      (Z.lxor (nth 13 ws 0) (nth 15 ws 0)) in
      schedule n' (rotl 1 x :: ws)
  end.

Definition f (t : nat) (b c d : Z) : Z :=
  if (t <? 20)%nat then Z.lor (Z.land b c) (Z.land (not32 b) d)
  else if (t <? 40)%nat then Z.lxor (Z.lxor b c) d
  else if (t <? 60)%nat then
    Z.lor (Z.lor (Z.land b c) (Z.land b d)) (Z.land c d)
  else Z.lxor (Z.lxor b c) d.

Definition k (t : nat) : Z :=
  if (t <? 20)%nat then 1518500249
  else if (t <? 40)%nat then 1859775393
  else if (t <? 60)%nat then 2400959708
  else 3395469782.

Record regs := Regs { ra : Z; rb : Z; rc : Z; rd : Z; re : Z }.

Definition round (s : regs) (tw : nat * Z) : regs :=
  let '(t, w) := tw in
  let temp :=
    add32 (add32 (add32 (add32 (rotl 5 (ra s)) (f t (rb s) (rc s) (rd s)))
                        (re s)) (k t)) w in
  Regs temp (ra s) (rotl 30 (rb s)) (rc s) (rd s).

Definition block (h : regs) (bs : list Z) : regs :=
  let w := rev (schedule 64 (rev (words 16 bs))) in
  let s := fold_left round (combine (seq 0 80) w) h in
  Regs (add32 (ra h) (ra s)) (add32 (rb h) (rb s)) (add32 (rc h) (rc s))
       (add32 (rd h) (rd s)) (add32 (re h) (re s)).

Fixpoint blocks (n : nat) (h : regs) (bs : list Z) : regs :=
  match n with
  | O => h
  | S n' => blocks n' (block h (take 64 bs)) (drop 64 bs)
  end.

Definition init : regs :=
  Regs 1732584193 4023233417 2562383102 271733878 3285377520.

Definition digest (msg : list Z) : list Z :=
  let p := pad msg in
  let h := blocks (length p / 64) init p in
  be_bytes 4 (ra h) ++ be_bytes 4 (rb h) ++ be_bytes 4 (rc h)
    ++ be_bytes 4 (rd h) ++ be_bytes 4 (re h).

End SHA1.

(** The bytes [update(str)] feeds to the digest. *)
Fixpoint bytes_of_string (s : string) : list Z :=
  match s with
  | EmptyString => []
  | String a s' => Z.of_N (N_of_ascii a) :: bytes_of_string s'
  end.

Definition sha1 (s : string) : list Z := SHA1.digest (bytes_of_string s).

(** ** Identifier space *)

(** [Math.ceil(m / 8)] on an integer [m]. *)
Definition ceil_div8 (m : Z) : Z := - ((- m) / 8).

(** [hash.slice(0, e)]: a negative end counts from the end of the buffer. *)
Definition slice0 (l : list Z) (e : Z) : list Z :=
  if e <? 0 then take (Z.to_nat (Z.of_nat (length l) + e)) l
  else take (Z.to_nat e) l.

Definition hashToID (str : string) (m : Z) : Z :=
  let hash := sha1 str in
  let bitsNeeded := m in
  let bytesNeeded := ceil_div8 bitsNeeded in
  let sliced := slice0 hash bytesNeeded in
  let id := fold_left (fun id b => Z.shiftl id 8 + b) sliced 0 in
  let excessBits := bytesNeeded * 8 - bitsNeeded in
  if 0 <? excessBits then Z.shiftr id excessBits else id.

(** [BigInt.prototype.toString()]. *)
Definition toString (z : Z) : string := NilZero.string_of_int (Z.to_int z).

(** An [id] field at run time.  The [/info] handler replaces every bigint
    by its decimal string before sending, and [fetchNodeInfo] stores the
    received entries as they come, so an entry's [id] is either a bigint
    or the decimal string of one: [Dec z] is the string [z.toString()]. *)
Inductive idval : Type :=
  | Big (z : Z)
  | Dec (z : Z).

Definition num (a : idval) : Z := match a with Big z | Dec z => z end.

(** Relational operators: two strings compare by code units, a string and
    a bigint compare as numbers. *)
Definition js_lt (a b : idval) : bool :=
  match a, b with
  | Dec x, Dec y => String.ltb (toString x) (toString y)
  | _, _ => num a <? num b
  end.
Definition js_gt (a b : idval) : bool := js_lt b a.
Definition js_le (a b : idval) : bool := negb (js_lt b a).
Definition js_ge (a b : idval) : bool := negb (js_lt a b).

(** [===]: values of different types are never equal. *)
Definition js_seq (a b : idval) : bool :=
  match a, b with
  | Big x, Big y => x =? y
  | Dec x, Dec y => String.eqb (toString x) (toString y)
  | _, _ => false
  end.

Definition inInterval (key start end_ ringSize : idval) : bool :=
  if js_lt start end_ then
    js_gt key start && js_le key end_
  else
    (js_gt key start && js_lt key ringSize)
    || (js_ge key (Big 0) && js_le key end_).

(** ** Node state *)

Record NodeEntry := mkEntry { id : idval; url : string }.

Record KVEntry := mkKV { originalKey : string; value : string }.

Record Node := mkNode {
  node_id : Z;
  node_url : string;
  kvStore : gmap Z KVEntry;
  node_m : Z;
  ringSize : Z;
  fingerTable : list (option NodeEntry);
  predecessor : option NodeEntry;
  successor : NodeEntry;
  stabilizeInterval : Z
}.

Definition set_predecessor (p : option NodeEntry) (n : Node) : Node :=
  mkNode (node_id n) (node_url n) (kvStore n) (node_m n) (ringSize n)
         (fingerTable n) p (successor n) (stabilizeInterval n).

Definition set_successor (s : NodeEntry) (n : Node) : Node :=
  mkNode (node_id n) (node_url n) (kvStore n) (node_m n) (ringSize n)
         (fingerTable n) (predecessor n) s (stabilizeInterval n).

Definition set_fingerTable (ft : list (option NodeEntry)) (n : Node) : Node :=
  mkNode (node_id n) (node_url n) (kvStore n) (node_m n) (ringSize n)
         ft (predecessor n) (successor n) (stabilizeInterval n).

Definition set_kvStore (kv : gmap Z KVEntry) (n : Node) : Node :=
  mkNode (node_id n) (node_url n) kv (node_m n) (ringSize n)
         (fingerTable n) (predecessor n) (successor n) (stabilizeInterval n).

(** [arr[i] = v] on a JavaScript array: an index past the end extends the
    array, the slots in between being empty. *)
Definition js_set (l : list (option NodeEntry)) (i : nat) (v : NodeEntry)
  : list (option NodeEntry) :=
  if (i <? length l)%nat then <[i := Some v]> l
  else l ++ repeat None (i - length l) ++ [Some v].

(** The entry [{ id: this.id, url: this.url }]. *)
Definition self_entry (this : Node) : NodeEntry :=
  mkEntry (Big (node_id this)) (node_url this).

(** The constructor of [Node] ([new Array(m)] needs [m >= 0]). *)
Definition new_Node (url : string) (m : Z) (stabilizeInterval : Z) : Node :=
  let id := hashToID url m in
  mkNode id url ∅ m (Z.shiftl 1 m) (repeat None (Z.to_nat m)) None
         (mkEntry (Big id) url) stabilizeInterval.

(** ** The [/info] reply *)

(** What [stringifyBigInt] does to an entry: a bigint [id] becomes its
    decimal string, a string stays as it is. *)
Definition stringifyBigInt (e : NodeEntry) : NodeEntry :=
  mkEntry (Dec (num (id e))) (url e).

Record InfoData := mkInfo {
  data_url : string;
  data_m : Z;
  data_predecessor : option NodeEntry;
  data_successor : NodeEntry;
  data_fingerTable : list (option NodeEntry);
  data_stabilizeInterval : Z
}.

Definition info (node : Node) : InfoData :=
  mkInfo (node_url node) (node_m node)
         (option_map stringifyBigInt (predecessor node))
         (stringifyBigInt (successor node))
         (map (option_map stringifyBigInt) (fingerTable node))
         (stabilizeInterval node).

(** The [Node] that [fetchNodeInfo] builds from a reply. *)
Definition node_of_info (data : InfoData) : Node :=
  let n := new_Node (data_url data) (data_m data) (data_stabilizeInterval data) in
  set_fingerTable (data_fingerTable data)
    (set_successor (data_successor data)
       (set_predecessor (data_predecessor data) n)).

(** ** Processes, requests and the monad of asynchronous methods *)

Inductive Request : Type :=
  | GetInfo (to : string)
  | PostNotify (to : string) (id url : string)
  | PostPut (to : string) (key value : string) (ttl : Z).

Inductive Error : Type :=
  | RequestFailed (r : Request)
  | RangeError
  | NoProcess (at_ : string).

(** [world] maps a listen address to the state of the node serving it (an
    address without a node does not answer); [log] is the list of requests
    sent so far, latest first. *)
Record St := mkSt { world : gmap string Node; log : list Request }.

Inductive outcome (A : Type) : Type :=
  | Ok (a : A)
  | Err (e : Error)
  | Pending.
Arguments Ok {A} a.
Arguments Err {A} e.
Arguments Pending {A}.

Definition M (A : Type) : Type := St -> outcome A * St.

Definition ret {A} (a : A) : M A := fun s => (Ok a, s).

Definition bind {A B} (c : M A) (k : A -> M B) : M B :=
  fun s =>
    match c s with
    | (Ok a, s') => k a s'
    | (Err e, s') => (Err e, s')
    | (Pending, s') => (Pending, s')
    end.

Definition throw {A} (e : Error) : M A := fun s => (Err e, s).

(** A promise that has not settled when the fuel runs out. *)
Definition pending {A} : M A := fun s => (Pending, s).

Notation "'let*' x ':=' c 'in' k" := (bind c (fun x => k))
  (at level 10, x name, c at level 100, k at level 200).

Definition send (r : Request) : M unit :=
  fun s => (Ok tt, mkSt (world s) (r :: log s)).

(** The live object [node] (or [this]) of the process at [me]. *)
Definition get_node (me : string) : M Node :=
  fun s =>
    match world s !! me with
    | Some n => (Ok n, s)
    | None => (Err (NoProcess me), s)
    end.

Definition modify_node (me : string) (f : Node -> Node) : M unit :=
  fun s =>
    match world s !! me with
    | Some n => (Ok tt, mkSt (<[me := f n]> (world s)) (log s))
    | None => (Err (NoProcess me), s)
    end.

Definition fetchNodeInfo (url : string) : M Node :=
  let* _ := send (GetInfo url) in
  fun s =>
    match world s !! url with
    | Some peer => (Ok (node_of_info (info peer)), s)
    | None => (Err (RequestFailed (GetInfo url)), s)
    end.

(** ** Lookup *)

Fixpoint scan_fingers (this : Node) (key : Z) (i : nat) : NodeEntry :=
  match i with
  | O => self_entry this
  | S i' =>
      match fingerTable this !! i' with
      | Some (Some ft) =>
          if inInterval (id ft) (Big (node_id this)) (Big key)
                        (Big (ringSize this))
          then ft else scan_fingers this key i'
      | _ => scan_fingers this key i'
      end
  end.

Definition closestPrecedingNode (this : Node) (key : Z) : NodeEntry :=
  scan_fingers this key (length (fingerTable this)).

(** The [while] loop of [findSuccessor] and [findPredecessor]; one unit of
    fuel per remote fetch. *)
Fixpoint lookup (fuel : nat) (key : Z) (currentNode : Node) : M Node :=
  if negb (inInterval (Big key) (Big (node_id currentNode))
                      (id (successor currentNode))
                      (Big (ringSize currentNode)))
  then
    let cpNode := closestPrecedingNode currentNode key in
    if js_seq (id cpNode) (Big (node_id currentNode)) then ret currentNode
    else
      match fuel with
      | O => pending
      | S fuel' =>
          let* next := fetchNodeInfo (url cpNode) in
          lookup fuel' key next
      end
  else ret currentNode.

Definition findSuccessor (fuel : nat) (this : Node) (keyStr : string)
  : M NodeEntry :=
  let key := hashToID keyStr (node_m this) in
  let* currentNode := lookup fuel key this in
  ret (successor currentNode).

Definition findPredecessor (fuel : nat) (this : Node) (keyStr : string)
  : M Node :=
  let key := hashToID keyStr (node_m this) in
  lookup fuel key this.

(** ** Ring maintenance *)

Definition join (fuel : nat) (me : string) (existingNodeUrl : option string)
  : M unit :=
  let* this := get_node me in
  let* _ :=
    match existingNodeUrl with
    | Some existing =>
        let* peer := fetchNodeInfo existing in
        let* succ := findSuccessor fuel peer (node_url this) in
        let* _ := modify_node me (set_predecessor None) in
        modify_node me (set_successor succ)
    | None =>
        let* _ := modify_node me (set_predecessor (Some (self_entry this))) in
        modify_node me (set_successor (self_entry this))
    end in
  modify_node me
    (fun this => set_fingerTable (js_set (fingerTable this) 0 (successor this)) this).

Definition notify (this : Node) (node : NodeEntry) : Node :=
  match predecessor this with
  | None => set_predecessor (Some node) this
  | Some p =>
      if inInterval (Big (hashToID (url node) (node_m this)))
                    (Big (hashToID (url p) (node_m this)))
                    (Big (node_id this)) (Big (ringSize this))
      then set_predecessor (Some node) this
      else this
  end.

(** [app.post('/notify')]: the [id] of the body is not used. *)
Definition notify_handler (node : Node) (body_id body_url : string) : Node :=
  let nodeEntry := mkEntry (Big (hashToID body_url (node_m node))) body_url in
  notify node nodeEntry.

Definition post_notify (to body_id body_url : string) : M unit :=
  let* _ := send (PostNotify to body_id body_url) in
  fun s =>
    match world s !! to with
    | Some peer =>
        (Ok tt, mkSt (<[to := notify_handler peer body_id body_url]> (world s))
                     (log s))
    | None => (Err (RequestFailed (PostNotify to body_id body_url)), s)
    end.

(** [x === null]. *)
Definition is_null {A} (x : option A) : bool :=
  match x with None => true | Some _ => false end.

Definition stabilize (me : string) : M unit :=
  let* this := get_node me in
  if js_seq (id (successor this)) (Big (node_id this))
     && is_null (predecessor this)
  then ret tt
  else
    let* successorNode := fetchNodeInfo (url (successor this)) in
    let x := predecessor successorNode in
    let* _ :=
      match x with
      | Some x' =>
          if inInterval (id x') (Big (node_id this)) (id (successor this))
                        (Big (ringSize this))
          then modify_node me (set_successor x')
          else ret tt
      | None => ret tt
      end in
    let* this := get_node me in
    post_notify (url (successor this)) (toString (node_id this)) (node_url this).

(** [Math.floor(Math.random() * length)], the draw being a rational in
    [0, 1) and the product exact: the rounding of the product of two
    doubles is left out, so the index is the code's for the draws whose
    product with the length is a double ([1/2] with any length up to
    [2^53]), and may be one less than the code's for a draw whose product
    rounds up to an integer. *)
Definition randomIndex (random : Q) (length : nat) : nat :=
  Z.to_nat (Qfloor (Qmult random (inject_Z (Z.of_nat length)))).

(** [a % b] on bigints: the remainder has the sign of [a]; a zero divisor
    raises a [RangeError]. *)
Definition js_rem (a b : Z) : M Z :=
  if b =? 0 then throw RangeError else ret (Z.rem a b).

Definition fixFingers (fuel : nat) (me : string) (random : Q) : M unit :=
  let* this := get_node me in
  let randomIndex := randomIndex random (length (fingerTable this)) in
  let* start :=
    js_rem (node_id this + Z.shiftl 1 (Z.of_nat randomIndex)) (ringSize this) in
  let startKeyStr := (node_url this ++ "#finger" ++ toString start)%string in
  let* successor := findSuccessor fuel this startKeyStr in
  modify_node me
    (fun this => set_fingerTable (js_set (fingerTable this) randomIndex successor) this).

Definition checkPredecessor (me : string) : M unit := ret tt.

(** The callback of [setInterval]. *)
Definition tick (fuel : nat) (me : string) (random : Q) : M unit :=
  let* _ := stabilize me in
  let* _ := fixFingers fuel me random in
  checkPredecessor me.

(** ** Key-value routing *)

(** The [message] of the error with which [axios.post] rejects. *)
Inductive AxiosError : Type :=
  | NetworkError
  | BadStatus (status : Z).

Inductive Body : Type :=
  | TTLExpired
  | KeyStored (at_ key value : string)
  | ForwardFailed (error : AxiosError).

Record Response := mkResponse { status : Z; body : Body }.

(** How [axios.post] settles on what the peer's handler did: a 2xx reply
    resolves with its body, another status rejects with an error.  When
    the handler itself threw, the code sends no reply; the request is then
    left pending here (a runtime that ends the peer's process on the
    unhandled rejection, so that the request is rejected, is not
    modelled). *)
Definition axios_settle (r : outcome Response) : outcome (Body + AxiosError) :=
  match r with
  | Ok resp =>
      if (200 <=? status resp) && (status resp <? 300)
      then Ok (inl (body resp))
      else Ok (inr (BadStatus (status resp)))
  | Err _ => Pending
  | Pending => Pending
  end.

(** [app.post('/put')] at the process [me]; [hops] bounds the chain of
    forwards the model follows, [fuel] each lookup. *)
Fixpoint put (hops fuel : nat) (me : string) (key value : string)
  (ttl_ : option Z) : M Response :=
  let ttl := match ttl_ with Some ttl => ttl | None => 10 end in
  if ttl <=? 0 then ret (mkResponse 400 TTLExpired)
  else
    let* node := get_node me in
    let keyID := hashToID key (node_m node) in
    let* successor := findSuccessor fuel node key in
    if String.eqb (url successor) (node_url node) then
      let* _ := modify_node me
        (fun node => set_kvStore (<[keyID := mkKV key value]> (kvStore node)) node) in
      ret (mkResponse 200 (KeyStored (node_url node) key value))
    else
      let* _ := send (PostPut (url successor) key value (ttl - 1)) in
      let* resp :=
        fun s =>
          match world s !! url successor with
          | None => (Ok (inr NetworkError), s)
          | Some _ =>
              match hops with
              | O => (Pending, s)
              | S hops' =>
                  let '(r, s') :=
                    put hops' fuel (url successor) key value (Some (ttl - 1)) s in
                  (axios_settle r, s')
              end
          end in
      match resp with
      | inl data => ret (mkResponse 200 data)
      | inr error => ret (mkResponse 500 (ForwardFailed error))
      end.

(** ** Vocabulary of the statements *)

Definition is_byte (b : Z) : Prop := 0 <= b < 256.

(** The loop test of the lookup: the key lies in
    (current.id, current.successor.id]. *)
Definition in_successor_interval (key : Z) (current : Node) : bool :=
  inInterval (Big key) (Big (node_id current)) (id (successor current))
             (Big (ringSize current)).

(** The test of [closestPrecedingNode] on a finger: its identifier lies in
    (this.id, key]. *)
Definition qualifies (this : Node) (key : Z) (ft : NodeEntry) : bool :=
  inInterval (id ft) (Big (node_id this)) (Big key) (Big (ringSize this)).

(** The test [cpNode.id === currentNode.id]. *)
Definition equals_current (candidate : NodeEntry) (current : Node) : bool :=
  js_seq (id candidate) (Big (node_id current)).

(** The closest preceding node as the specification words it: the
    highest-indexed finger that qualifies, or the node itself if none
    does. *)
Definition closest_preceding (this : Node) (key : Z) (r : NodeEntry) : Prop :=
  (exists i ft,
      fingerTable this !! i = Some (Some ft)
      /\ qualifies this key ft = true
      /\ (forall j ft', (i < j)%nat -> fingerTable this !! j = Some (Some ft')
                        -> qualifies this key ft' = false)
      /\ r = ft)
  \/ ((forall j ft', fingerTable this !! j = Some (Some ft')
                     -> qualifies this key ft' = false)
      /\ r = self_entry this).

(** The lookup as the specification words it: from [current], while the
    key is not in the successor interval, take the closest preceding node;
    stop if it equals [current], otherwise fetch its published state and go
    on from there.  The relation gives the node the loop ends on, or the
    error of the fetch that failed. *)
Inductive lookup_spec (key : Z) : Node -> St -> outcome Node -> St -> Prop :=
  | lookup_in_interval current s :
      in_successor_interval key current = true ->
      lookup_spec key current s (Ok current) s
  | lookup_no_progress current s candidate :
      in_successor_interval key current = false ->
      closest_preceding current key candidate ->
      equals_current candidate current = true ->
      lookup_spec key current s (Ok current) s
  | lookup_hop current s candidate next s' r s'' :
      in_successor_interval key current = false ->
      closest_preceding current key candidate ->
      equals_current candidate current = false ->
      fetchNodeInfo (url candidate) s = (Ok next, s') ->
      lookup_spec key next s' r s'' ->
      lookup_spec key current s r s''
  | lookup_fetch_failed current s candidate e s' :
      in_successor_interval key current = false ->
      closest_preceding current key candidate ->
      equals_current candidate current = false ->
      fetchNodeInfo (url candidate) s = (Err e, s') ->
      lookup_spec key current s (Err e) s'.

(** ** Rings of the demonstration set-up

    [start_nodes.sh] and the README start the nodes at
    [http://localhost:3000] ... [3009]; the default width is [m = 5]. *)

Definition localhost (port : Z) : string :=
  ("http://localhost:" ++ toString port)%string.

Definition exec {A} (c : M A) (s : St) : St := snd (c s).

(** A process that has just started: the constructor, then [node.join(null)]. *)
Definition start (m : Z) (port : Z) (s : St) : St :=
  let u := localhost port in
  exec (join 0 u None) (mkSt (<[u := new_Node u m 1000]> (world s)) (log s)).

(** The process at [port] is killed. *)
Definition kill (port : Z) (s : St) : St :=
  mkSt (delete (localhost port) (world s)) (log s).

(** Two nodes: [b] joins through [a], then each runs [stabilize] once. *)
Definition two_node_ring (m a b : Z) : St :=
  let s := start m b (start m a (mkSt ∅ [])) in
  let s := exec (join 8 (localhost b) (Some (localhost a))) s in
  let s := exec (stabilize (localhost b)) s in
  exec (stabilize (localhost a)) s.

(** The two-node ring of 3000 and 3006 after the node at 3006 has run
    [fixFingers] with the draw 1/2, that is on its finger 2. *)
Definition ring_after_fixFingers : St :=
  exec (fixFingers 8 (localhost 3006) (1 # 2)) (two_node_ring 5 3000 3006).





(** The state of the node at [port], for a process that runs. *)
Definition node_at (port : Z) (s : St) : Node :=
  match world s !! localhost port with
  | Some n => n
  | None => new_Node (localhost port) 0 0
  end.

(** ** Reading a key *)

Inductive GetBody : Type :=
  | Found (key value : string)
  | NotFound (key : string)
  | GetForwardFailed.

Record GetResponse := mkGetResponse { get_status : Z; get_body : GetBody }.

(** [app.get('/get')] at the process [me], the request
    [axios.get(`${successor.url}/get?key=...`)] being [axios_get]: it
    resolves with the reply's body or rejects.  The store is read after the
    lookup has returned. *)
Definition get_handler (axios_get : string -> string -> M (GetBody + unit))
  (fuel : nat) (me : string) (key : string) : M GetResponse :=
  let* node := get_node me in
  let keyID := hashToID key (node_m node) in
  let* successor := findSuccessor fuel node key in
  if String.eqb (url successor) (node_url node) then
    let* node := get_node me in
    match kvStore node !! keyID with
    | Some entry =>
        ret (mkGetResponse 200 (Found (originalKey entry) (value entry)))
    | None => ret (mkGetResponse 200 (NotFound key))
    end
  else
    let* resp := axios_get (url successor) key in
    match resp with
    | inl data => ret (mkGetResponse 200 data)
    | inr _ => ret (mkGetResponse 500 GetForwardFailed)
    end.

Definition axios_settle_get (r : outcome GetResponse) : outcome (GetBody + unit) :=
  match r with
  | Ok resp =>
      if (200 <=? get_status resp) && (get_status resp <? 300)
      then Ok (inl (get_body resp))
      else Ok (inr tt)
  | Err _ => Pending
  | Pending => Pending
  end.

(** The handler among the processes of [world]: the forwarded request is
    answered by the handler of the process it is sent to ([hops] bounds the
    chain the model follows); an address without a process rejects.  The
    forwarded request is followed, not recorded in [log]. *)
Fixpoint get (hops fuel : nat) (me : string) (key : string) : M GetResponse :=
  get_handler
    (fun to key s =>
       match world s !! to with
       | None => (Ok (inr tt), s)
       | Some _ =>
           match hops with
           | O => (Pending, s)
           | S hops' =>
               let '(r, s') := get hops' fuel to key s in
               (axios_settle_get r, s')
           end
       end)
    fuel me key.

(** [app.get('/keys')]: the object built by the [reduce], from the decimal
    string of each identifier to the stored entry. *)
Definition keys_handler (node : Node) : gmap string KVEntry :=
  foldl (fun acc kv => <[toString (fst kv) := snd kv]> acc) ∅
        (map_to_list (kvStore node)).

(** ** Vocabulary of the further statements *)

(** An entry whose identifier is the hash of its address. *)
Definition wf_entry (m : Z) (e : NodeEntry) : Prop :=
  num (id e) = hashToID (url e) m.

(** A computation keeps the invariant [I], whatever its outcome, and its
    value satisfies [Q]. *)
Definition keeps {A} (I : St -> Prop) (c : M A) (Q : A -> Prop) : Prop :=
  forall s r s', I s -> c s = (r, s') ->
    I s' /\ (forall a, r = Ok a -> Q a).


Definition is_info (r : Request) : bool :=
  match r with GetInfo _ => true | _ => false end.


(** Two processes start at [a] and [b] with width [m]; [b] joins through
    [a]; then [b] and [a] run [stabilize] once each. *)
Definition two_nodes (m : Z) (a b : string) (fuel : nat) : St :=
  let s := mkSt (<[b := new_Node b m 1000]> (<[a := new_Node a m 1000]> ∅)) [] in
  let s := exec (join 0 a None) s in
  let s := exec (join 0 b None) s in
  let s := exec (join fuel b (Some a)) s in
  let s := exec (stabilize b) s in
  exec (stabilize a) s.

(** The single process of a ring, after the constructor and [join(null)]. *)
Definition solo_node (m : Z) (u : string) : Node :=
  let n := new_Node u m 1000 in
  set_fingerTable (js_set (fingerTable n) 0 (self_entry n))
    (set_successor (self_entry n) (set_predecessor (Some (self_entry n)) n)).

(** The successor [stabilize] settles on, given the predecessor [x] the
    successor publishes. *)
Definition stabilize_choice (this : Node) (x : option NodeEntry) : NodeEntry :=
  match x with
  | Some x' =>
      if inInterval (id x') (Big (node_id this)) (id (successor this))
                    (Big (ringSize this))
      then x' else successor this
  | None => successor this
  end.

(** Two node objects that agree on everything but the stored pairs. *)
Definition same_ring_view (n n' : Node) : Prop :=
  set_kvStore ∅ n = set_kvStore ∅ n'.

(** Two sets of processes whose [/info] replies are the same. *)
Definition same_published (w w' : gmap string Node) : Prop :=
  forall u, option_map info (w !! u) = option_map info (w' !! u).

(** The test that opens [stabilize]:
    [this.successor.id === this.id && this.predecessor === null]. *)
Definition returns_early (this : Node) : bool :=
  js_seq (id (successor this)) (Big (node_id this))
  && is_null (predecessor this).

Definition no_early_return (s : St) : Prop :=
  forall u n, world s !! u = Some n -> returns_early n = false.

(** A node object built by [fetchNodeInfo]. *)
Definition is_snapshot (n : Node) : Prop :=
  exists peer, n = node_of_info (info peer).

(** What happens to a ring: a process starts (constructor, then
    [join(null)]) or is killed, or a process runs one of its methods or
    handlers to its end. *)
Inductive Op : Type :=
  | OpStart (m port : Z)
  | OpKill (port : Z)
  | OpJoin (fuel : nat) (me : string) (existingNodeUrl : option string)
  | OpStabilize (me : string)
  | OpFixFingers (fuel : nat) (me : string) (random : Q)
  | OpTick (fuel : nat) (me : string) (random : Q)
  | OpNotify (to body_id body_url : string)
  | OpPut (hops fuel : nat) (me key value : string) (ttl_ : option Z)
  | OpGet (hops fuel : nat) (me key : string).

Definition run_op (o : Op) (s : St) : St :=
  match o with
  | OpStart m port => start m port s
  | OpKill port => kill port s
  | OpJoin fuel me existingNodeUrl => exec (join fuel me existingNodeUrl) s
  | OpStabilize me => exec (stabilize me) s
  | OpFixFingers fuel me random => exec (fixFingers fuel me random) s
  | OpTick fuel me random => exec (tick fuel me random) s
  | OpNotify to body_id body_url => exec (post_notify to body_id body_url) s
  | OpPut hops fuel me key value ttl_ => exec (put hops fuel me key value ttl_) s
  | OpGet hops fuel me key => exec (get hops fuel me key) s
  end.

(** The ring after a history, from no process at all. *)
Definition run (ops : list Op) : St :=
  fold_left (fun s o => run_op o s) ops (mkSt ∅ []).

(** An [OpStart] of the history uses the width [m]. *)
Definition starts_with_width (m : Z) (o : Op) : Prop :=
  match o with OpStart m' _ => m' = m | _ => True end.

(** The node has width [m] and the hash of its address as identifier, and
    every pointer it holds (successor, predecessor, fingers) carries the
    hash of the address it names. *)
Definition wf_pointers (m : Z) (n : Node) : Prop :=
  node_m n = m
  /\ node_id n = hashToID (node_url n) m
  /\ wf_entry m (successor n)
  /\ (forall p, predecessor n = Some p -> wf_entry m p)
  /\ (forall i e, fingerTable n !! i = Some (Some e) -> wf_entry m e).

Definition all_nodes (P : Node -> Prop) (s : St) : Prop :=
  forall u n, world s !! u = Some n -> P n.
(** * Properties *)

(** ** Identifier space *)

(** The digest on the test vectors of the standard, and the identifiers of
    the ten nodes of the demonstration for [m = 5]. *)
Example sha1_abc :
  sha1 "abc" = [169; 153; 62; 54; 71; 6; 129; 106; 186; 62;
                37; 113; 120; 80; 194; 108; 156; 208; 216; 157].
Proof. vm_compute. reflexivity. Qed.

Example sha1_empty :
  sha1 "" = [218; 57; 163; 238; 94; 107; 75; 13; 50; 85;
             191; 239; 149; 96; 24; 144; 175; 216; 7; 9].
Proof. vm_compute. reflexivity. Qed.

Example sha1_two_blocks :
  sha1 "abcdbcdecdefdefgefghfghighijhijkijkljklmklmnlmnomnopnopq"
  = [132; 152; 62; 68; 28; 59; 210; 110; 186; 174;
     74; 161; 249; 81; 41; 229; 229; 70; 112; 241].
Proof. vm_compute. reflexivity. Qed.

Example identifiers_of_the_demonstration :
  map (fun port => hashToID (localhost port) 5)
      [3000; 3001; 3002; 3003; 3004; 3005; 3006; 3007; 3008; 3009]
  = [5; 31; 11; 13; 22; 22; 28; 26; 17; 8].
Proof. vm_compute. reflexivity. Qed.

Section Bytes.

Lemma be_bytes_are_bytes n x : Forall is_byte (SHA1.be_bytes n x).
Proof.
  unfold SHA1.be_bytes. apply Forall_map, Forall_forall.
  intros i _. unfold is_byte. apply Z.mod_pos_bound. lia.
Qed.

Lemma sha1_bytes s : Forall is_byte (sha1 s).
Proof.
  unfold sha1, SHA1.digest.
  repeat (apply Forall_app; split); apply be_bytes_are_bytes.
Qed.

Lemma accumulate_bound (l : list Z) :
  Forall is_byte l ->
  forall a k, 0 <= k -> 0 <= a < 2 ^ k ->
    0 <= fold_left (fun id b => Z.shiftl id 8 + b) l a
      < 2 ^ (k + 8 * Z.of_nat (length l)).
Proof.
  induction 1 as [|b l Hb _ IH]; intros a k Hk Ha; simpl fold_left.
  - simpl length. replace (k + 8 * Z.of_nat 0) with k by lia. exact Ha.
  - assert (Hstep : 0 <= Z.shiftl a 8 + b < 2 ^ (k + 8)).
    { rewrite Z.shiftl_mul_pow2 by lia. rewrite Z.pow_add_r by lia.
      unfold is_byte in Hb. change (2 ^ 8) with 256. nia. }
    specialize (IH _ (k + 8) ltac:(lia) Hstep).
    replace (k + 8 * Z.of_nat (length (b :: l)))
      with (k + 8 + 8 * Z.of_nat (length l)) by (simpl length; lia).
    exact IH.
Qed.

Lemma ceil_div8_spec m : 0 <= ceil_div8 m * 8 - m < 8.
Proof.
  unfold ceil_div8.
  pose proof (Z.div_mod (- m) 8 ltac:(lia)) as E.
  pose proof (Z.mod_pos_bound (- m) 8 ltac:(lia)). lia.
Qed.

Lemma hashToID_range s m : 0 <= m -> 0 <= hashToID s m < 2 ^ m.
Proof.
  intros Hm. unfold hashToID.
  pose proof (ceil_div8_spec m) as Hc.
  set (B := ceil_div8 m) in *.
  assert (HB : 0 <= B) by lia.
  unfold slice0. destruct (Z.ltb_spec B 0) as [?|_]; [lia|].
  set (sliced := take (Z.to_nat B) (sha1 s)).
  assert (Hs : Forall is_byte sliced) by (apply Forall_take, sha1_bytes).
  assert (Hl : Z.of_nat (length sliced) <= B).
  { subst sliced. rewrite length_take. lia. }
  pose proof (accumulate_bound sliced Hs 0 0 ltac:(lia) ltac:(simpl; lia)) as Hacc.
  set (acc := fold_left _ sliced 0) in *.
  assert (Hacc' : 0 <= acc < 2 ^ (8 * B)).
  { split; [lia|]. eapply Z.lt_le_trans; [apply Hacc|].
    apply Z.pow_le_mono_r; lia. }
  destruct (Z.ltb_spec 0 (B * 8 - m)) as [He|He].
  - rewrite Z.shiftr_div_pow2 by lia. split.
    + apply Z.div_pos; [lia|]. apply Z.pow_pos_nonneg; lia.
    + apply Z.div_lt_upper_bound; [apply Z.pow_pos_nonneg; lia|].
      rewrite <- Z.pow_add_r by lia.
      replace (B * 8 - m + m) with (8 * B) by lia. lia.
  - replace m with (8 * B) by lia. exact Hacc'.
Qed.

End Bytes.

(** C8.  [hashToID s m] depends on nothing but [s] and [m]: equal
    arguments give equal identifiers, and the identifier a peer recomputes
    for a node from that node's published address and width is the one the
    node computed for itself.  For every string and every width [m >= 1]
    the identifier lies in [0, 2^m). *)
Theorem hashToID_deterministic_in_range (s : string) (m : Z) :
  1 <= m ->
  0 <= hashToID s m < 2 ^ m
  /\ (forall s' m', s' = s -> m' = m -> hashToID s' m' = hashToID s m)
  /\ (forall interval,
        node_id (node_of_info (info (new_Node s m interval))) = hashToID s m
        /\ node_id (new_Node s m interval) = hashToID s m).
Proof.
  intros Hm. split; [apply hashToID_range; lia|]. split.
  - intros s' m' -> ->. reflexivity.
  - intros interval. split; reflexivity.
Qed.

Lemma hashToID_deterministic_in_range_witness :
  1 <= 5
  /\ 0 <= hashToID "http://localhost:3000" 5 < 2 ^ 5
  /\ (forall s' m', s' = "http://localhost:3000" -> m' = 5 ->
                    hashToID s' m' = hashToID "http://localhost:3000" 5)
  /\ (forall interval,
        node_id (node_of_info (info (new_Node "http://localhost:3000" 5 interval)))
        = hashToID "http://localhost:3000" 5
        /\ node_id (new_Node "http://localhost:3000" 5 interval)
           = hashToID "http://localhost:3000" 5).
Proof.
  split; [lia|].
  apply (hashToID_deterministic_in_range "http://localhost:3000" 5); lia.
Defined.

(** On bigints the interval test is the arithmetic one. *)
Lemma inInterval_Big key start end_ ringSize :
  inInterval (Big key) (Big start) (Big end_) (Big ringSize)
  = if start <? end_ then (start <? key) && (key <=? end_)
    else ((start <? key) && (key <? ringSize))
         || ((0 <=? key) && (key <=? end_)).
Proof.
  unfold inInterval, js_gt, js_le, js_ge, js_lt, num.
  rewrite <- !Z.leb_antisym. reflexivity.
Qed.

(** C1.  On bigint arguments [inInterval] is the clockwise half-open
    interval [(start, end]]: when [start < end] it holds exactly for
    [start < key <= end]; when [start >= end] it holds, for a key on the
    ring, exactly for [key > start] or [key <= end] (and in general for
    [start < key < ringSize] or [0 <= key <= end]).  The four boundary
    cases on the ring of size 32 evaluate as listed. *)
Theorem inInterval_clockwise_half_open (key start end_ ringSize : Z) :
  (start < end_ ->
     (inInterval (Big key) (Big start) (Big end_) (Big ringSize) = true
      <-> start < key <= end_))
  /\ (start >= end_ -> 0 <= key < ringSize ->
     (inInterval (Big key) (Big start) (Big end_) (Big ringSize) = true
      <-> key > start \/ key <= end_))
  /\ (start >= end_ ->
     (inInterval (Big key) (Big start) (Big end_) (Big ringSize) = true
      <-> (start < key < ringSize) \/ (0 <= key <= end_)))
  /\ inInterval (Big 20) (Big 10) (Big 25) (Big 32) = true
  /\ inInterval (Big 25) (Big 25) (Big 5) (Big 32) = false
  /\ inInterval (Big 30) (Big 25) (Big 5) (Big 32) = true
  /\ inInterval (Big 5) (Big 10) (Big 25) (Big 32) = false.
Proof.
  rewrite inInterval_Big.
  repeat split; try reflexivity; intros;
    repeat match goal with
           | |- context [?a <? ?b] => destruct (Z.ltb_spec a b)
           | |- context [?a <=? ?b] => destruct (Z.leb_spec a b)
           | H : context [?a <? ?b] |- _ => destruct (Z.ltb_spec a b)
           | H : context [?a <=? ?b] |- _ => destruct (Z.leb_spec a b)
           end; simpl in *; try lia; try discriminate.
Qed.

Lemma inInterval_clockwise_half_open_witness :
  (25 >= 5 /\ 0 <= 30 < 32)
  /\ (inInterval (Big 30) (Big 25) (Big 5) (Big 32) = true
      <-> 30 > 25 \/ 30 <= 5).
Proof.
  split; [lia|].
  apply (proj1 (proj2 (inInterval_clockwise_half_open 30 25 5 32))); lia.
Defined.

(** ** The monad on a known state *)

Section Steps.

Lemma get_node_ok me s n :
  world s !! me = Some n -> get_node me s = (Ok n, s).
Proof. intros H. unfold get_node. rewrite H. reflexivity. Qed.

Lemma modify_node_ok me f s n :
  world s !! me = Some n ->
  modify_node me f s = (Ok tt, mkSt (<[me := f n]> (world s)) (log s)).
Proof. intros H. unfold modify_node. rewrite H. reflexivity. Qed.

Lemma fetchNodeInfo_ok u s peer :
  world s !! u = Some peer ->
  fetchNodeInfo u s
  = (Ok (node_of_info (info peer)), mkSt (world s) (GetInfo u :: log s)).
Proof.
  intros H. unfold fetchNodeInfo, bind, send. simpl. rewrite H. reflexivity.
Qed.

Lemma fetchNodeInfo_failed u s :
  world s !! u = None ->
  fetchNodeInfo u s
  = (Err (RequestFailed (GetInfo u)), mkSt (world s) (GetInfo u :: log s)).
Proof.
  intros H. unfold fetchNodeInfo, bind, send. simpl. rewrite H. reflexivity.
Qed.

(** A fetch resolves with the peer's published state or rejects; either
    way it is logged and changes no node. *)
Lemma fetchNodeInfo_cases u s :
  (exists peer, world s !! u = Some peer
     /\ fetchNodeInfo u s
        = (Ok (node_of_info (info peer)), mkSt (world s) (GetInfo u :: log s)))
  \/ (world s !! u = None
      /\ fetchNodeInfo u s
         = (Err (RequestFailed (GetInfo u)), mkSt (world s) (GetInfo u :: log s))).
Proof.
  destruct (world s !! u) as [peer|] eqn:E.
  - left. exists peer. split; [reflexivity|]. apply fetchNodeInfo_ok, E.
  - right. split; [reflexivity|]. apply fetchNodeInfo_failed, E.
Qed.

Lemma bind_pending {A B} (c : M A) (k : A -> M B) s :
  fst (c s) = Pending -> fst (bind c k s) = Pending.
Proof.
  unfold bind. destruct (c s) as [[a|e|] s1]; simpl; intros H;
    try discriminate; reflexivity.
Qed.

End Steps.

(** ** closestPrecedingNode *)

Section ClosestPreceding.

Variables (this : Node) (key : Z).

(** The downward scan from index [n - 1]. *)
Lemma scan_fingers_spec n :
  (exists i ft,
      (i < n)%nat
      /\ fingerTable this !! i = Some (Some ft)
      /\ qualifies this key ft = true
      /\ (forall j ft', (i < j < n)%nat ->
            fingerTable this !! j = Some (Some ft') ->
            qualifies this key ft' = false)
      /\ scan_fingers this key n = ft)
  \/ ((forall j ft', (j < n)%nat ->
         fingerTable this !! j = Some (Some ft') ->
         qualifies this key ft' = false)
      /\ scan_fingers this key n = self_entry this).
Proof.
  induction n as [|n IH]; simpl.
  - right. split; [intros; lia | reflexivity].
  - destruct (fingerTable this !! n) as [[ft|]|] eqn:E.
    + fold (qualifies this key ft). destruct (qualifies this key ft) eqn:Q.
      * left. exists n, ft. repeat split; auto; intros; lia.
      * destruct IH as [(i & ft0 & Hi & Hl & Hq & Hmax & Hr)|[Hnone Hr]].
        -- left. exists i, ft0. repeat split; auto.
           intros j ft' Hj Hlj. destruct (decide (j = n)) as [->|].
           ++ rewrite E in Hlj. congruence.
           ++ apply (Hmax j); [lia | exact Hlj].
        -- right. split; [|exact Hr].
           intros j ft' Hj Hlj. destruct (decide (j = n)) as [->|].
           ++ rewrite E in Hlj. congruence.
           ++ apply (Hnone j); [lia | exact Hlj].
    + destruct IH as [(i & ft0 & Hi & Hl & Hq & Hmax & Hr)|[Hnone Hr]].
      * left. exists i, ft0. repeat split; auto.
        intros j ft' Hj Hlj. destruct (decide (j = n)) as [->|].
        -- rewrite E in Hlj. congruence.
        -- apply (Hmax j); [lia | exact Hlj].
      * right. split; [|exact Hr].
        intros j ft' Hj Hlj. destruct (decide (j = n)) as [->|].
        -- rewrite E in Hlj. congruence.
        -- apply (Hnone j); [lia | exact Hlj].
    + destruct IH as [(i & ft0 & Hi & Hl & Hq & Hmax & Hr)|[Hnone Hr]].
      * left. exists i, ft0. repeat split; auto.
        intros j ft' Hj Hlj. destruct (decide (j = n)) as [->|].
        -- rewrite E in Hlj. congruence.
        -- apply (Hmax j); [lia | exact Hlj].
      * right. split; [|exact Hr].
        intros j ft' Hj Hlj. destruct (decide (j = n)) as [->|].
        -- rewrite E in Hlj. congruence.
        -- apply (Hnone j); [lia | exact Hlj].
Qed.

Lemma closestPrecedingNode_spec :
  closest_preceding this key (closestPrecedingNode this key).
Proof.
  unfold closest_preceding, closestPrecedingNode.
  destruct (scan_fingers_spec (length (fingerTable this)))
    as [(i & ft & Hi & Hl & Hq & Hmax & Hr)|[Hnone Hr]].
  - left. exists i, ft. repeat split; auto.
    intros j ft' Hj Hlj. apply (Hmax j); [|exact Hlj].
    apply lookup_lt_Some in Hlj. lia.
  - right. split; [|exact Hr].
    intros j ft' Hlj. apply (Hnone j); [|exact Hlj].
    apply lookup_lt_Some in Hlj. lia.
Qed.

(** The specification's wording determines the candidate. *)
Lemma closest_preceding_unique r1 r2 :
  closest_preceding this key r1 -> closest_preceding this key r2 -> r1 = r2.
Proof.
  intros [(i & ft & Hl & Hq & Hmax & ->)|[Hnone ->]]
         [(i' & ft' & Hl' & Hq' & Hmax' & ->)|[Hnone' ->]].
  - destruct (Nat.lt_trichotomy i i') as [H|[H|H]].
    + rewrite (Hmax i' ft' H Hl') in Hq'. discriminate.
    + subst i'. rewrite Hl in Hl'. congruence.
    + rewrite (Hmax' i ft H Hl) in Hq. discriminate.
  - rewrite (Hnone' i ft Hl) in Hq. discriminate.
  - rewrite (Hnone i' ft' Hl') in Hq'. discriminate.
  - reflexivity.
Qed.

Lemma closest_preceding_iff r :
  closest_preceding this key r <-> r = closestPrecedingNode this key.
Proof.
  split.
  - intros H. apply (closest_preceding_unique _ _ H closestPrecedingNode_spec).
  - intros ->. apply closestPrecedingNode_spec.
Qed.

End ClosestPreceding.

(** ** The lookup loop *)

Section Lookup.

Lemma lookup_stop_in_interval fuel key current s :
  in_successor_interval key current = true ->
  lookup fuel key current s = (Ok current, s).
Proof.
  unfold in_successor_interval. intros H.
  destruct fuel; simpl; rewrite H; reflexivity.
Qed.

Lemma lookup_stop_no_progress fuel key current s :
  in_successor_interval key current = false ->
  equals_current (closestPrecedingNode current key) current = true ->
  lookup fuel key current s = (Ok current, s).
Proof.
  unfold in_successor_interval, equals_current. intros H1 H2.
  destruct fuel; simpl; rewrite H1; simpl; rewrite H2; reflexivity.
Qed.

Lemma lookup_hop_eq fuel key current s :
  in_successor_interval key current = false ->
  equals_current (closestPrecedingNode current key) current = false ->
  lookup (S fuel) key current s
  = bind (fetchNodeInfo (url (closestPrecedingNode current key)))
         (lookup fuel key) s.
Proof.
  unfold in_successor_interval, equals_current. intros H1 H2.
  simpl. rewrite H1. simpl. rewrite H2. reflexivity.
Qed.

Lemma lookup_out_of_fuel key current s :
  in_successor_interval key current = false ->
  equals_current (closestPrecedingNode current key) current = false ->
  lookup 0 key current s = (Pending, s).
Proof.
  unfold in_successor_interval, equals_current. intros H1 H2.
  simpl. rewrite H1. simpl. rewrite H2. reflexivity.
Qed.

(** The loop as a function computes what the specification's wording
    describes. *)
Lemma lookup_sound fuel key :
  forall current s r s',
    lookup fuel key current s = (r, s') -> r <> Pending ->
    lookup_spec key current s r s'.
Proof.
  induction fuel as [|fuel IH]; intros current s r s' H Hr.
  - destruct (in_successor_interval key current) eqn:E1.
    + rewrite lookup_stop_in_interval in H by exact E1.
      inversion H; subst. apply lookup_in_interval, E1.
    + destruct (equals_current (closestPrecedingNode current key) current) eqn:E2.
      * rewrite lookup_stop_no_progress in H by assumption.
        inversion H; subst.
        eapply lookup_no_progress; eauto using closestPrecedingNode_spec.
      * rewrite lookup_out_of_fuel in H by assumption.
        inversion H; subst. congruence.
  - destruct (in_successor_interval key current) eqn:E1.
    + rewrite lookup_stop_in_interval in H by exact E1.
      inversion H; subst. apply lookup_in_interval, E1.
    + destruct (equals_current (closestPrecedingNode current key) current) eqn:E2.
      * rewrite lookup_stop_no_progress in H by assumption.
        inversion H; subst.
        eapply lookup_no_progress; eauto using closestPrecedingNode_spec.
      * rewrite lookup_hop_eq in H by assumption. unfold bind in H.
        destruct (fetchNodeInfo (url (closestPrecedingNode current key)) s)
          as [[next|e|] s1] eqn:F.
        -- eapply lookup_hop; eauto using closestPrecedingNode_spec.
        -- inversion H; subst.
           eapply lookup_fetch_failed; eauto using closestPrecedingNode_spec.
        -- inversion H; subst. congruence.
Qed.

Lemma lookup_complete key current s r s' :
  lookup_spec key current s r s' ->
  exists fuel, lookup fuel key current s = (r, s').
Proof.
  induction 1 as [current s E1
                 |current s candidate E1 C E2
                 |current s candidate next s' r s'' E1 C E2 F _ [fuel IH]
                 |current s candidate e s' E1 C E2 F].
  - exists 0%nat. apply lookup_stop_in_interval, E1.
  - apply closest_preceding_iff in C. subst candidate.
    exists 0%nat. apply lookup_stop_no_progress; assumption.
  - apply closest_preceding_iff in C. subst candidate.
    exists (S fuel). rewrite lookup_hop_eq by assumption.
    unfold bind. rewrite F. exact IH.
  - apply closest_preceding_iff in C. subst candidate.
    exists 1%nat. rewrite lookup_hop_eq by assumption.
    unfold bind. rewrite F. reflexivity.
Qed.


(** A lookup sends requests and changes no node. *)
Lemma lookup_world fuel key :
  forall current s r s',
    lookup fuel key current s = (r, s') -> world s' = world s.
Proof.
  induction fuel as [|fuel IH]; intros current s r s' H.
  - simpl in H. destruct (negb _); [destruct (js_seq _ _)|];
      inversion H; reflexivity.
  - simpl in H. destruct (negb _); [destruct (js_seq _ _)|];
      try (inversion H; reflexivity).
    unfold bind in H.
    destruct (fetchNodeInfo_cases (url (closestPrecedingNode current key)) s)
      as [(peer & _ & F)|[_ F]]; rewrite F in H.
    + apply IH in H. exact H.
    + inversion H; reflexivity.
Qed.

End Lookup.

(** [findSuccessor] computes the key's identifier and returns the
    successor field of the node on which the loop of the specification
    ends, the equality of candidate and current node being the test
    [cpNode.id === currentNode.id] of the code: the loop goes on while the
    key is not in (current.id, current.successor.id], takes the closest
    preceding node of [current] -- the highest-indexed finger whose
    identifier is in (current.id, key], or [current] itself if there is
    none, and then the test holds -- stops if the test holds, and
    otherwise fetches the candidate's published state and goes on from
    it. *)
Lemma findSuccessor_follows_specified_loop
  (this : Node) (keyStr : string) (s : St) (result : NodeEntry) (s' : St) :
  let key := hashToID keyStr (node_m this) in
  ((exists fuel, findSuccessor fuel this keyStr s = (Ok result, s'))
   <-> (exists last, lookup_spec key this s (Ok last) s'
                     /\ result = successor last))
  /\ closest_preceding this key (closestPrecedingNode this key)
  /\ ((forall j ft, fingerTable this !! j = Some (Some ft)
                    -> qualifies this key ft = false)
      -> closestPrecedingNode this key = self_entry this
         /\ equals_current (closestPrecedingNode this key) this = true).
Proof.
  intros key. split; [split|split].
  - intros [fuel H]. unfold findSuccessor, bind in H. fold key in H.
    destruct (lookup fuel key this s) as [[last|e|] s1] eqn:L;
      inversion H; subst.
    exists last. split; [|reflexivity].
    apply (lookup_sound fuel); [exact L | discriminate].
  - intros (last & H & ->). apply lookup_complete in H as [fuel H].
    exists fuel. unfold findSuccessor, bind. fold key. rewrite H. reflexivity.
  - apply closestPrecedingNode_spec.
  - intros Hnone.
    assert (E : closestPrecedingNode this key = self_entry this).
    { symmetry. apply closest_preceding_iff. right. split; [exact Hnone|reflexivity]. }
    split; [exact E|]. rewrite E.
    unfold equals_current, self_entry. simpl. apply Z.eqb_refl.
Qed.

(** ** Degenerate interval and the solo ring *)

Lemma inInterval_degenerate_num key start end_ ringSize :
  num end_ = start -> 0 <= key < ringSize ->
  inInterval (Big key) (Big start) end_ (Big ringSize) = true.
Proof.
  intros <- Hk. unfold inInterval, js_gt, js_le, js_ge.
  destruct end_ as [e|e]; simpl;
    rewrite Z.ltb_irrefl;
    destruct (Z.ltb_spec e key), (Z.ltb_spec key ringSize),
             (Z.ltb_spec key 0); simpl; try reflexivity; lia.
Qed.

(** C10.  When start and end coincide the interval test holds for every
    key of the ring, the key equal to the start included.  Hence on a node
    whose successor carries the node's own identifier the test of
    [findSuccessor] succeeds at once for every key: the lookup returns the
    successor without sending any request. *)
Theorem inInterval_degenerate_and_solo_lookup :
  (forall start key ringSize,
      0 <= key < ringSize ->
      inInterval (Big key) (Big start) (Big start) (Big ringSize) = true)
  /\ (forall fuel this keyStr s,
        0 <= node_m this ->
        ringSize this = Z.shiftl 1 (node_m this) ->
        num (id (successor this)) = node_id this ->
        in_successor_interval (hashToID keyStr (node_m this)) this = true
        /\ findSuccessor fuel this keyStr s = (Ok (successor this), s)).
Proof.
  split.
  - intros start key ringSize Hk.
    apply inInterval_degenerate_num; [reflexivity | exact Hk].
  - intros fuel this keyStr s Hm Hring Hsucc.
    assert (E : in_successor_interval (hashToID keyStr (node_m this)) this = true).
    { unfold in_successor_interval. apply inInterval_degenerate_num; [exact Hsucc|].
      rewrite Hring, Z.shiftl_1_l. apply hashToID_range, Hm. }
    split; [exact E|].
    unfold findSuccessor, bind.
    rewrite lookup_stop_in_interval by exact E. reflexivity.
Qed.

Lemma inInterval_degenerate_and_solo_lookup_witness :
  inInterval (Big 25) (Big 25) (Big 25) (Big 32) = true
  /\ findSuccessor 0 (new_Node (localhost 3000) 5 1000) "k" (mkSt ∅ [])
     = (Ok (mkEntry (Big (hashToID (localhost 3000) 5)) (localhost 3000)),
        mkSt ∅ []).
Proof.
  split.
  - apply (proj1 inInterval_degenerate_and_solo_lookup 25 25 32). lia.
  - apply (proj2 inInterval_degenerate_and_solo_lookup 0%nat
             (new_Node (localhost 3000) 5 1000) "k" (mkSt ∅ []));
      [simpl; lia | reflexivity | reflexivity].
Defined.

(** ** join *)

Lemma js_set_first l v : js_set l 0 v !! 0%nat = Some (Some v).
Proof. destruct l; reflexivity. Qed.

(** C9.  On a node [this] (in particular a fresh one), [join(null)] sets
    the predecessor, the successor and finger 0 to the node's own entry,
    so the successor's and the predecessor's identifiers are the node's;
    it sends no request.  [join(existing)] sets the successor to what
    [findSuccessor(own address)] returns on the existing node's published
    state, the predecessor to null and finger 0 to the new successor. *)
Theorem join_sets_ring_pointers
  (fuel : nat) (me : string) (this : Node) (s : St) :
  world s !! me = Some this ->
  (exists after,
      join fuel me None s = (Ok tt, mkSt (<[me := after]> (world s)) (log s))
      /\ predecessor after = Some (self_entry this)
      /\ successor after = self_entry this
      /\ fingerTable after !! 0%nat = Some (Some (self_entry this))
      /\ id (successor after) = Big (node_id after)
      /\ option_map id (predecessor after) = Some (Big (node_id after)))
  /\ (forall existing peer succ s1,
        world s !! existing = Some peer ->
        findSuccessor fuel (node_of_info (info peer)) (node_url this)
                      (mkSt (world s) (GetInfo existing :: log s))
        = (Ok succ, s1) ->
        exists after,
          join fuel me (Some existing) s
          = (Ok tt, mkSt (<[me := after]> (world s)) (log s1))
          /\ successor after = succ
          /\ predecessor after = None
          /\ fingerTable after !! 0%nat = Some (Some succ)).
Proof.
  intros Hme. split.
  - eexists. split.
    + unfold join, bind. rewrite (get_node_ok _ _ _ Hme).
      rewrite (modify_node_ok _ _ _ _ Hme).
      erewrite modify_node_ok by (simpl; apply lookup_insert_eq).
      erewrite modify_node_ok by (simpl; apply lookup_insert_eq).
      simpl. rewrite !insert_insert_eq. reflexivity.
    + simpl. repeat split; try reflexivity. apply js_set_first.
  - intros existing peer succ s1 Hex Hfind.
    assert (Hw : world s1 = world s).
    { unfold findSuccessor, bind in Hfind.
      destruct (lookup _ _ _ _) as [[last|e|] s2] eqn:L; inversion Hfind; subst.
      apply lookup_world in L. exact L. }
    eexists. split.
    + unfold join. unfold bind at 1. rewrite (get_node_ok _ _ _ Hme).
      unfold bind at 1. unfold bind at 1.
      rewrite (fetchNodeInfo_ok _ _ _ Hex).
      unfold bind at 1. rewrite Hfind.
      unfold bind at 1.
      erewrite modify_node_ok by (rewrite Hw; exact Hme).
      erewrite modify_node_ok by (simpl; apply lookup_insert_eq).
      erewrite modify_node_ok by (simpl; apply lookup_insert_eq).
      simpl. rewrite !insert_insert_eq, Hw. reflexivity.
    + simpl. repeat split; try reflexivity. apply js_set_first.
Qed.

(** ** put *)

Section Put.

Variables (fuel : nat) (me key value : string) (ttl : Z) (s : St).

Lemma put_ttl_exhausted hops :
  ttl <= 0 ->
  put hops fuel me key value (Some ttl) s = (Ok (mkResponse 400 TTLExpired), s).
Proof.
  intros H. destruct hops; cbn [put];
    (destruct (Z.leb_spec ttl 0); [reflexivity | lia]).
Qed.

Variables (node : Node) (owner : NodeEntry) (s1 : St).
Hypothesis Httl : 0 < ttl.
Hypothesis Hme : world s !! me = Some node.
Hypothesis Hfind : findSuccessor fuel node key s = (Ok owner, s1).
Hypothesis Hother : url owner <> node_url node.

Let s2 : St := mkSt (world s1) (PostPut (url owner) key value (ttl - 1) :: log s1).

Lemma put_forward_unreachable hops :
  world s1 !! url owner = None ->
  put hops fuel me key value (Some ttl) s
  = (Ok (mkResponse 500 (ForwardFailed NetworkError)), s2).
Proof.
  intros Hnone.
  assert (Heqb : String.eqb (url owner) (node_url node) = false)
    by (apply String.eqb_neq; exact Hother).
  destruct hops; cbn [put];
    (destruct (Z.leb_spec ttl 0); [lia|]);
    unfold bind at 1; rewrite (get_node_ok _ _ _ Hme);
    unfold bind at 1; rewrite Hfind, Heqb;
    unfold bind, send; simpl; rewrite Hnone; reflexivity.
Qed.

Lemma put_forward_reply hops peer reply s3 :
  world s1 !! url owner = Some peer ->
  put hops fuel (url owner) key value (Some (ttl - 1)) s2 = (Ok reply, s3) ->
  put (S hops) fuel me key value (Some ttl) s
  = (Ok (if (200 <=? status reply) && (status reply <? 300)
         then mkResponse 200 (body reply)
         else mkResponse 500 (ForwardFailed (BadStatus (status reply)))),
     s3).
Proof.
  intros Hpeer Hreply.
  assert (Heqb : String.eqb (url owner) (node_url node) = false)
    by (apply String.eqb_neq; exact Hother).
  cbn [put]. destruct (Z.leb_spec ttl 0); [lia|].
  unfold bind at 1. rewrite (get_node_ok _ _ _ Hme).
  unfold bind at 1. rewrite Hfind, Heqb.
  unfold bind, send. simpl. rewrite Hpeer.
  fold s2. rewrite Hreply. simpl.
  destruct ((200 <=? status reply) && (status reply <? 300)); reflexivity.
Qed.

End Put.


(** The owner is this node: the pair is stored under the key's identifier. *)
Lemma put_stores_locally hops fuel me key value ttl s node owner s1 :
  0 < ttl ->
  world s !! me = Some node ->
  findSuccessor fuel node key s = (Ok owner, s1) ->
  url owner = node_url node ->
  put hops fuel me key value (Some ttl) s
  = (Ok (mkResponse 200 (KeyStored (node_url node) key value)),
     mkSt (<[me := set_kvStore (<[hashToID key (node_m node) := mkKV key value]>
                                  (kvStore node)) node]> (world s))
          (log s1)).
Proof.
  intros Httl Hme Hfind Hsame.
  assert (Hw : world s1 = world s).
  { unfold findSuccessor, bind in Hfind.
    destruct (lookup _ _ _ _) as [[last|e|] s2] eqn:L; inversion Hfind; subst.
    apply lookup_world in L. exact L. }
  assert (Heqb : String.eqb (url owner) (node_url node) = true)
    by (apply String.eqb_eq; exact Hsame).
  destruct hops; cbn [put];
    (destruct (Z.leb_spec ttl 0); [lia|]);
    unfold bind at 1; rewrite (get_node_ok _ _ _ Hme);
    unfold bind at 1; rewrite Hfind, Heqb;
    unfold bind at 1;
    (erewrite modify_node_ok by (rewrite Hw; exact Hme));
    rewrite Hw; reflexivity.
Qed.

(** C5 as amended.  With [ttl <= 0] a put is answered at once with the
    TTL error: nothing is looked up, nothing is sent and no node changes.
    With [ttl > 0], once [findSuccessor] has returned an owner that is not
    this node, the put is sent to the owner with [ttl - 1]; a reply with a
    2xx status is relayed as it is, a reply with another status (such as
    the owner's own TTL error) and an unreachable owner are answered with
    a 500 that carries the error. *)
Theorem put_ttl_and_forwarding
  (hops fuel : nat) (me key value : string) (ttl : Z) (s : St) :
  (ttl <= 0 ->
     put hops fuel me key value (Some ttl) s
     = (Ok (mkResponse 400 TTLExpired), s))
  /\ (0 < ttl ->
      forall node owner s1,
        world s !! me = Some node ->
        findSuccessor fuel node key s = (Ok owner, s1) ->
        url owner <> node_url node ->
        let s2 := mkSt (world s1)
                       (PostPut (url owner) key value (ttl - 1) :: log s1) in
        (world s1 !! url owner = None ->
           put hops fuel me key value (Some ttl) s
           = (Ok (mkResponse 500 (ForwardFailed NetworkError)), s2))
        /\ (forall peer reply s3,
              world s1 !! url owner = Some peer ->
              put hops fuel (url owner) key value (Some (ttl - 1)) s2
              = (Ok reply, s3) ->
              put (S hops) fuel me key value (Some ttl) s
              = (Ok (if (200 <=? status reply) && (status reply <? 300)
                     then mkResponse 200 (body reply)
                     else mkResponse 500
                            (ForwardFailed (BadStatus (status reply)))),
                 s3))).
Proof.
  split.
  - apply put_ttl_exhausted.
  - intros Httl node owner s1 Hme Hfind Hother s2. split.
    + apply put_forward_unreachable with (node := node); assumption.
    + intros peer reply s3.
      apply put_forward_reply with (node := node); assumption.
Qed.

(** ** fixFingers *)

Section FixFingers.

Lemma randomIndex_lt (random : Q) (len : nat) :
  (0 <= random)%Q -> (random < 1)%Q -> (0 < len)%nat ->
  (randomIndex random len < len)%nat.
Proof.
  intros H0 H1 Hlen. unfold randomIndex.
  set (n := inject_Z (Z.of_nat len)).
  assert (Hn : (0 < n)%Q).
  { unfold n. change 0%Q with (inject_Z 0). rewrite <- Zlt_Qlt. lia. }
  assert (Hlo : (0 <= random * n)%Q).
  { apply Qmult_le_0_compat; [exact H0 | apply Qlt_le_weak, Hn]. }
  assert (Hhi : (random * n < n)%Q).
  { rewrite <- (Qmult_1_l n) at 2. apply Qmult_lt_compat_r; assumption. }
  assert (Hf0 : 0 <= Qfloor (random * n)).
  { change 0 with (Qfloor (inject_Z 0)) at 1.
    - apply Qfloor_resp_le. exact Hlo. }
  assert (Hf1 : Qfloor (random * n) < Z.of_nat len).
  { rewrite Zlt_Qlt. eapply Qle_lt_trans; [apply Qfloor_le | exact Hhi]. }
  lia.
Qed.

Lemma js_set_in_range l i v :
  (i < length l)%nat ->
  js_set l i v = <[i := Some v]> l.
Proof.
  intros H. unfold js_set. destruct (Nat.ltb_spec i (length l)); [reflexivity | lia].
Qed.

(** One call writes one slot: with a draw in [0, 1) the index is below the
    length of the table, the key string is built from the target
    [(id + 2^index) mod ringSize], and the table after the call is the
    table before with that slot set to what the lookup returned. *)
Lemma fixFingers_refreshes_one_slot fuel me random s this found s1 :
  let index := randomIndex random (length (fingerTable this)) in
  let start := Z.rem (node_id this + Z.shiftl 1 (Z.of_nat index)) (ringSize this) in
  let startKeyStr := (node_url this ++ "#finger" ++ toString start)%string in
  world s !! me = Some this ->
  ringSize this <> 0 ->
  (0 <= random)%Q -> (random < 1)%Q -> (0 < length (fingerTable this))%nat ->
  findSuccessor fuel this startKeyStr s = (Ok found, s1) ->
  (index < length (fingerTable this))%nat
  /\ fixFingers fuel me random s
     = (Ok tt,
        mkSt (<[me := set_fingerTable (<[index := Some found]> (fingerTable this)) this]>
                (world s))
             (log s1)).
Proof.
  intros index start startKeyStr Hme Hring H0 H1 Hlen Hfind.
  assert (Hidx : (index < length (fingerTable this))%nat)
    by (apply randomIndex_lt; assumption).
  split; [exact Hidx|].
  assert (Hw : world s1 = world s).
  { unfold findSuccessor, bind in Hfind.
    destruct (lookup _ _ _ _) as [[last|e|] s2] eqn:L; inversion Hfind; subst.
    apply lookup_world in L. exact L. }
  unfold fixFingers. unfold bind at 1. rewrite (get_node_ok _ _ _ Hme).
  unfold bind at 1. unfold js_rem.
  destruct (Z.eqb_spec (ringSize this) 0) as [E|_]; [contradiction|].
  unfold ret at 1. fold index. fold start. fold startKeyStr.
  unfold bind at 1. rewrite Hfind.
  erewrite modify_node_ok by (rewrite Hw; exact Hme).
  rewrite js_set_in_range by exact Hidx. rewrite Hw. reflexivity.
Qed.

End FixFingers.

(** ** How a lookup can end *)

Section LookupOutcomes.



End LookupOutcomes.



(** ** The periodic round *)

(** C4 as amended.  The round has no error handler.  An error raised by
    [stabilize] is the outcome of the round, [fixFingers] and
    [checkPredecessor] are not run and the state is the one [stabilize]
    left; likewise for an error raised by [fixFingers].  In particular,
    when the successor of a node does not answer, [stabilize] fails with
    the error of that fetch and changes no node. *)
Theorem tick_error_not_caught
  (fuel : nat) (me : string) (random : Q) (s : St) :
  (forall e s',
      stabilize me s = (Err e, s') ->
      tick fuel me random s = (Err e, s'))
  /\ (forall s1 e s',
        stabilize me s = (Ok tt, s1) ->
        fixFingers fuel me random s1 = (Err e, s') ->
        tick fuel me random s = (Err e, s'))
  /\ (forall this,
        world s !! me = Some this ->
        js_seq (id (successor this)) (Big (node_id this))
          && is_null (predecessor this) = false ->
        world s !! url (successor this) = None ->
        let e := RequestFailed (GetInfo (url (successor this))) in
        let s' := mkSt (world s) (GetInfo (url (successor this)) :: log s) in
        stabilize me s = (Err e, s') /\ tick fuel me random s = (Err e, s')).
Proof.
  assert (H1 : forall e s', stabilize me s = (Err e, s') ->
                            tick fuel me random s = (Err e, s')).
  { intros e s' H. unfold tick. unfold bind at 1. rewrite H. reflexivity. }
  split; [exact H1|]. split.
  - intros s1 e s' Hs Hf. unfold tick. unfold bind at 1. rewrite Hs.
    unfold bind at 1. rewrite Hf. reflexivity.
  - intros this Hme Hgo Hnone e s'.
    assert (Hs : stabilize me s = (Err e, s')).
    { unfold stabilize. unfold bind at 1. rewrite (get_node_ok _ _ _ Hme).
      rewrite Hgo. unfold bind at 1.
      rewrite (fetchNodeInfo_failed _ _ Hnone). reflexivity. }
    split; [exact Hs | apply H1, Hs].
Qed.

(** ** stabilize on consistent pointers *)

Section Stabilize.

Lemma string_ltb_irrefl t : String.ltb t t = false.
Proof.
  unfold String.ltb. pose proof (String.compare_antisym t t) as H.
  destruct (String.compare t t); simpl in H; try reflexivity; discriminate.
Qed.

Lemma set_predecessor_same n : set_predecessor (predecessor n) n = n.
Proof. destruct n. reflexivity. Qed.

(** A notify from the node that is already the stored predecessor changes
    nothing. *)
Lemma notify_handler_same peer body_id u :
  predecessor peer = Some (mkEntry (Big (hashToID u (node_m peer))) u) ->
  notify_handler peer body_id u = peer.
Proof.
  intros H. unfold notify_handler, notify. rewrite H.
  destruct (inInterval _ _ _ _); [|reflexivity].
  rewrite <- H. apply set_predecessor_same.
Qed.

Variables (me : string) (s : St) (this : Node).
Hypothesis Hme : world s !! me = Some this.
Hypothesis Hurl : node_url this = me.

(** A node below its successor, whose successor stores it as predecessor:
    [stabilize] sends its two requests and changes no node. *)
Lemma stabilize_fixed_point_below_successor peer :
  let su := url (successor this) in
  su <> me ->
  world s !! su = Some peer ->
  predecessor peer = Some (self_entry this) ->
  node_id this = hashToID me (node_m peer) ->
  node_id this < num (id (successor this)) ->
  stabilize me s
  = (Ok tt, mkSt (world s)
                 (PostNotify su (toString (node_id this)) me
                    :: GetInfo su :: log s)).
Proof.
  intros su Hsu Hpeer Hpred Hid Hlt.
  unfold stabilize. unfold bind at 1. rewrite (get_node_ok _ _ _ Hme).
  assert (Hskip : js_seq (id (successor this)) (Big (node_id this)) = false).
  { destruct (id (successor this)) as [z|z]; simpl in *; [|reflexivity].
    apply Z.eqb_neq. lia. }
  rewrite Hskip. cbn [andb].
  unfold bind at 1. fold su. rewrite (fetchNodeInfo_ok _ _ _ Hpeer).
  assert (Hx : predecessor (node_of_info (info peer))
               = Some (mkEntry (Dec (node_id this)) me)).
  { simpl. rewrite Hpred. simpl. unfold stringifyBigInt, self_entry. simpl.
    rewrite Hurl. reflexivity. }
  rewrite Hx.
  assert (Hno : inInterval (Dec (node_id this)) (Big (node_id this))
                           (id (successor this)) (Big (ringSize this)) = false).
  { unfold inInterval, js_gt.
    assert (E : js_lt (Big (node_id this)) (id (successor this)) = true).
    { destruct (id (successor this)); simpl in *; apply Z.ltb_lt; lia. }
    rewrite E. simpl. rewrite Z.ltb_irrefl. reflexivity. }
  simpl id at 1. rewrite Hno.
  unfold bind at 1. unfold ret at 1.
  unfold bind at 1. simpl world. rewrite (get_node_ok _ _ this) by exact Hme.
  unfold post_notify, bind, send. simpl. fold su. rewrite Hpeer, Hurl.
  rewrite notify_handler_same.
  - rewrite insert_id by exact Hpeer. reflexivity.
  - rewrite Hpred. unfold self_entry. rewrite Hurl, Hid. reflexivity.
Qed.

(** The single-node ring: the successor keeps the node's address and
    identifier (the identifier is from then on held as the string the
    node's own [/info] sent), the predecessor stays the node's entry. *)
Lemma stabilize_fixed_point_solo :
  url (successor this) = me ->
  num (id (successor this)) = node_id this ->
  predecessor this = Some (self_entry this) ->
  node_id this = hashToID me (node_m this) ->
  0 <= node_m this ->
  ringSize this = Z.shiftl 1 (node_m this) ->
  let after := set_successor (mkEntry (Dec (node_id this)) me) this in
  stabilize me s
  = (Ok tt, mkSt (<[me := after]> (world s))
                 (PostNotify me (toString (node_id this)) me
                    :: GetInfo me :: log s))
  /\ url (successor after) = me
  /\ num (id (successor after)) = node_id after
  /\ predecessor after = Some (self_entry after).
Proof.
  intros Hsu Hnum Hpred Hid Hm Hring after.
  split; [|repeat split; exact Hpred].
  assert (Hrange : 0 <= node_id this < ringSize this).
  { rewrite Hid, Hring, Z.shiftl_1_l. apply hashToID_range, Hm. }
  unfold stabilize. unfold bind at 1. rewrite (get_node_ok _ _ _ Hme).
  rewrite Hpred. simpl is_null. rewrite andb_false_r.
  unfold bind at 1. rewrite Hsu. rewrite (fetchNodeInfo_ok _ _ _ Hme).
  assert (Hx : predecessor (node_of_info (info this))
               = Some (mkEntry (Dec (node_id this)) me)).
  { simpl. rewrite Hpred. simpl. unfold stringifyBigInt, self_entry. simpl.
    rewrite Hurl. reflexivity. }
  rewrite Hx.
  assert (Hyes : inInterval (Dec (node_id this)) (Big (node_id this))
                            (id (successor this)) (Big (ringSize this)) = true).
  { unfold inInterval, js_gt, js_ge, js_le.
    destruct (id (successor this)) as [z|z]; simpl in *; subst z;
      rewrite ?Z.ltb_irrefl, ?string_ltb_irrefl; simpl;
      destruct (Z.ltb_spec (node_id this) 0); try lia; reflexivity. }
  simpl id at 1. rewrite Hyes.
  unfold bind at 1. erewrite modify_node_ok by (simpl; exact Hme).
  unfold bind at 1.
  erewrite get_node_ok by (simpl; apply lookup_insert_eq).
  unfold post_notify, bind, send. simpl.
  rewrite Hurl, lookup_insert_eq.
  rewrite notify_handler_same.
  - rewrite insert_insert_eq. reflexivity.
  - simpl. rewrite Hpred. unfold self_entry. rewrite Hurl, Hid. reflexivity.
Qed.

End Stabilize.

(** ** The demonstration rings *)

Section ThreeNodeRing.

Let key : Z := hashToID (localhost 3004) 5.


End ThreeNodeRing.

Section SelfFinger.

Let key : Z := hashToID (localhost 3006) 5.
Let snap_3006 : Node :=
  node_of_info (info (node_at 3006 ring_after_fixFingers)).

(** The published state of 3006 sends a lookup of its own identifier back
    to 3006. *)
Lemma lookup_refetches_itself fuel :
  forall s, world s = world ring_after_fixFingers ->
    fst (lookup fuel key snap_3006 s) = Pending.
Proof.
  induction fuel as [|fuel IH]; intros s Hw.
  - rewrite lookup_out_of_fuel by (vm_compute; reflexivity). reflexivity.
  - rewrite lookup_hop_eq by (vm_compute; reflexivity). unfold bind.
    rewrite (fetchNodeInfo_ok _ _ (node_at 3006 ring_after_fixFingers))
      by (rewrite Hw; vm_compute; reflexivity).
    apply IH. exact Hw.
Qed.

End SelfFinger.

(** C2 at the failing input.  After its own [fixFingers] has stored the
    node 3006 in finger 2 of the node 3006 (the identifier as the string
    "28"), that node looks up its own address, whose identifier is 28.
    The key is not in (28, 5]; the closest preceding node is finger 2, the
    node itself; [cpNode.id === currentNode.id] compares the string "28"
    with the bigint 28 and is false, so the node fetches its own state and
    starts again, for ever. *)
Theorem findSuccessor_refetches_current_node :
  let s := ring_after_fixFingers in
  let this := node_at 3006 s in
  let key := hashToID (localhost 3006) (node_m this) in
  let candidate := closestPrecedingNode this key in
  (key = 28
   /\ node_id this = 28
   /\ successor this = mkEntry (Dec 5) (localhost 3000)
   /\ in_successor_interval key this = false
   /\ fingerTable this !! 2%nat = Some (Some (mkEntry (Dec 28) (localhost 3006)))
   /\ candidate = mkEntry (Dec 28) (localhost 3006)
   /\ url candidate = node_url this
   /\ num (id candidate) = node_id this
   /\ equals_current candidate this = false)
  /\ (forall fuel, fst (findSuccessor fuel this (localhost 3006) s) = Pending)
  /\ log (exec (findSuccessor 3 this (localhost 3006)) s)
     = GetInfo (localhost 3006) :: GetInfo (localhost 3006)
         :: GetInfo (localhost 3006) :: log s.
Proof.
  split; [vm_compute; repeat split; reflexivity|].
  split; [|vm_compute; reflexivity].
  intros fuel. unfold findSuccessor. apply bind_pending.
  assert (E : hashToID (localhost 3006)
                       (node_m (node_at 3006 ring_after_fixFingers))
              = hashToID (localhost 3006) 5) by (vm_compute; reflexivity).
  rewrite E.
  destruct fuel as [|fuel].
  - rewrite lookup_out_of_fuel by (vm_compute; reflexivity). reflexivity.
  - rewrite lookup_hop_eq by (vm_compute; reflexivity). unfold bind.
    rewrite (fetchNodeInfo_ok _ _ (node_at 3006 ring_after_fixFingers))
      by (vm_compute; reflexivity).
    apply lookup_refetches_itself. reflexivity.
Qed.



(** Refutation of C4 as stated.  In the two-node ring of 3000 and 3002,
    after the process at 3002 has been killed, the round of 3000 ends with
    the error of the fetch in [stabilize]; no finger is refreshed. *)
Lemma tick_rejects_when_successor_is_down :
  let s := kill 3002 (two_node_ring 5 3000 3002) in
  tick 8 (localhost 3000) (1 # 2) s
  = (Err (RequestFailed (GetInfo (localhost 3002))),
     mkSt (world s) (GetInfo (localhost 3002) :: log s)).
Proof. vm_compute. reflexivity. Qed.

Lemma tick_error_not_caught_witness :
  let s := kill 3002 (two_node_ring 5 3000 3002) in
  let this := node_at 3000 s in
  (world s !! localhost 3000 = Some this
   /\ js_seq (id (successor this)) (Big (node_id this))
        && is_null (predecessor this) = false
   /\ world s !! url (successor this) = None)
  /\ stabilize (localhost 3000) s
     = (Err (RequestFailed (GetInfo (url (successor this)))),
        mkSt (world s) (GetInfo (url (successor this)) :: log s)).
Proof.
  intros s this. split; [vm_compute; repeat split; reflexivity|].
  apply (proj1 (proj2 (proj2
           (tick_error_not_caught 8 (localhost 3000) (1 # 2) s)) this
           ltac:(vm_compute; reflexivity) ltac:(vm_compute; reflexivity)
           ltac:(vm_compute; reflexivity))).
Defined.

(** Refutation of C5 as stated.  In the two-node ring of 3000 and 3002 a
    put of "chord" with [ttl = 1] at 3000 is forwarded to the owner 3002
    with [ttl = 0]; the owner answers 400 with the TTL error; the caller is
    answered 500 "failed to forward", not the owner's reply. *)
Lemma put_reply_with_error_status_not_relayed :
  let s := two_node_ring 5 3000 3002 in
  let sent := PostPut (localhost 3002) "chord" "v" 0 in
  log (exec (put 1 8 (localhost 3000) "chord" "v" (Some 1)) s) = sent :: log s
  /\ fst (put 0 8 (localhost 3002) "chord" "v" (Some 0)
              (mkSt (world s) (sent :: log s)))
     = Ok (mkResponse 400 TTLExpired)
  /\ fst (put 1 8 (localhost 3000) "chord" "v" (Some 1) s)
     = Ok (mkResponse 500 (ForwardFailed (BadStatus 400))).
Proof. vm_compute. repeat split; reflexivity. Qed.

Lemma put_ttl_and_forwarding_witness :
  let s := two_node_ring 5 3000 3002 in
  let me := localhost 3000 in
  let owner := mkEntry (Dec 11) (localhost 3002) in
  (0 < 10
   /\ world s !! me = Some (node_at 3000 s)
   /\ findSuccessor 8 (node_at 3000 s) "chord" s = (Ok owner, s)
   /\ url owner <> node_url (node_at 3000 s))
  /\ (put 0 8 me "chord" "v" (Some 0) s = (Ok (mkResponse 400 TTLExpired), s))
  /\ fst (put 1 8 me "chord" "v" (Some 10) s)
     = Ok (mkResponse 200 (KeyStored (localhost 3002) "chord" "v")).
Proof.
  intros s me owner.
  assert (H1 : world s !! me = Some (node_at 3000 s))
    by (vm_compute; reflexivity).
  assert (H2 : findSuccessor 8 (node_at 3000 s) "chord" s = (Ok owner, s))
    by (vm_compute; reflexivity).
  assert (H3 : url owner <> node_url (node_at 3000 s))
    by (vm_compute; discriminate).
  split; [split; [lia | split; [exact H1 | split; [exact H2 | exact H3]]]|].
  split.
  - apply (proj1 (put_ttl_and_forwarding 0 8 me "chord" "v" 0 s)). lia.
  - pose proof (proj2 (proj2 (put_ttl_and_forwarding 0 8 me "chord" "v" 10 s)
                         ltac:(lia) _ _ _ H1 H2 H3)) as Hrelay.
    destruct (put 0 8 (url owner) "chord" "v" (Some (10 - 1))
                  (mkSt (world s)
                        (PostPut (url owner) "chord" "v" (10 - 1) :: log s)))
      as [r s3] eqn:Hput.
    assert (Hr : r = Ok (mkResponse 200 (KeyStored (localhost 3002) "chord" "v"))).
    { apply (f_equal fst) in Hput. cbn [fst] in Hput. rewrite <- Hput.
      vm_compute. reflexivity. }
    subst r.
    rewrite (Hrelay (node_at 3002 s) _ s3 ltac:(vm_compute; reflexivity) eq_refl).
    reflexivity.
Defined.

(** C7 at the failing input.  The two-node ring of 3000 (identifier 5) and
    3002 (identifier 11), built by the nodes' own [join] and [stabilize],
    is consistent: each node is the stored predecessor of its successor.
    The next [stabilize] of 3002 replaces its successor 3000 by 3002
    itself, and the notify it sends (to itself) replaces its predecessor
    3000 by 3002: the successor's identifier arrived as the string "5",
    the candidate's as the string "11", and [key <= end] compares the two
    strings, not the numbers. *)
Theorem stabilize_wrapping_node_adopts_itself :
  let s := two_node_ring 5 3000 3002 in
  let a := localhost 3002 in
  let b := localhost 3000 in
  (node_id (node_at 3002 s) = 11
   /\ successor (node_at 3002 s) = mkEntry (Dec 5) b
   /\ predecessor (node_at 3000 s) = Some (mkEntry (Big 11) a)
   /\ successor (node_at 3000 s) = mkEntry (Dec 11) a
   /\ predecessor (node_at 3002 s) = Some (mkEntry (Big 5) b))
  /\ fst (stabilize a s) = Ok tt
  /\ successor (node_at 3002 (exec (stabilize a) s)) = mkEntry (Dec 11) a
  /\ predecessor (node_at 3002 (exec (stabilize a) s)) = Some (mkEntry (Big 11) a)
  /\ inInterval (Dec 11) (Big 11) (Dec 5) (Big 32) = true
  /\ inInterval (Big 11) (Big 11) (Big 5) (Big 32) = false
  /\ js_le (Dec 11) (Dec 5) = true.
Proof. vm_compute. repeat split; reflexivity. Qed.

(** C3 at the failing input.  In the two-node ring of 3000 (identifier 5)
    and 3006 (identifier 28), [fixFingers] at 3006 with index 2 has the
    target [(28 + 4) mod 32 = 0], whose successor on the ring is 3000 (what
    the loop of the lookup returns for the key 0); the key that is looked up
    is the hash of "http://localhost:3006#finger0", which is 16, and the
    entry stored in finger 2 is 3006 itself. *)
Theorem fixFingers_looks_up_hash_of_label :
  let s := two_node_ring 5 3000 3006 in
  let me := localhost 3006 in
  let this := node_at 3006 s in
  (randomIndex (1 # 2) (length (fingerTable this)) = 2%nat
   /\ node_id this = 28
   /\ Z.rem (node_id this + Z.shiftl 1 2) (ringSize this) = 0
   /\ (me ++ "#finger" ++ toString 0)%string = "http://localhost:3006#finger0"
   /\ hashToID "http://localhost:3006#finger0" (node_m this) = 16)
  /\ fst (findPredecessor 8 this "http://localhost:3006#finger0" s)
     = Ok (node_of_info (info (node_at 3000 s)))
  /\ option_map successor (match fst (lookup 8 0 this s) with
                           | Ok last => Some last
                           | _ => None
                           end)
     = Some (mkEntry (Dec 5) (localhost 3000))
  /\ fst (fixFingers 8 me (1 # 2) s) = Ok tt
  /\ fingerTable (node_at 3006 (exec (fixFingers 8 me (1 # 2)) s))
     = [Some (mkEntry (Dec 5) (localhost 3000)); None;
        Some (mkEntry (Dec 28) me); None; None].
Proof. vm_compute. repeat split; reflexivity. Qed.

(** One hop of the specified loop: the lookup that [fixFingers] makes at
    3006 in the two-node ring goes through 3000 and returns 3006. *)
Example findSuccessor_one_hop :
  let s := two_node_ring 5 3000 3006 in
  let this := node_at 3006 s in
  let keyStr := "http://localhost:3006#finger0" in
  let s' := mkSt (world s) (GetInfo (localhost 3000) :: log s) in
  exists last,
    lookup_spec (hashToID keyStr (node_m this)) this s (Ok last) s'
    /\ mkEntry (Dec 28) (localhost 3006) = successor last.
Proof.
  intros s this keyStr s'.
  apply (proj1 (proj1 (findSuccessor_follows_specified_loop
                         this keyStr s (mkEntry (Dec 28) (localhost 3006)) s'))).
  exists 1%nat. vm_compute. reflexivity.
Qed.

Lemma join_sets_ring_pointers_witness :
  let me := localhost 3002 in
  let existing := localhost 3000 in
  let s := start 5 3002 (start 5 3000 (mkSt ∅ [])) in
  let succ := mkEntry (Dec 5) existing in
  (world s !! me = Some (node_at 3002 s)
   /\ world s !! existing = Some (node_at 3000 s)
   /\ findSuccessor 8 (node_of_info (info (node_at 3000 s)))
                    (node_url (node_at 3002 s))
                    (mkSt (world s) (GetInfo existing :: log s))
      = (Ok succ, mkSt (world s) (GetInfo existing :: log s)))
  /\ (exists after,
        join 8 me None s = (Ok tt, mkSt (<[me := after]> (world s)) (log s))
        /\ predecessor after = Some (self_entry (node_at 3002 s))
        /\ successor after = self_entry (node_at 3002 s)
        /\ fingerTable after !! 0%nat = Some (Some (self_entry (node_at 3002 s)))
        /\ id (successor after) = Big (node_id after)
        /\ option_map id (predecessor after) = Some (Big (node_id after)))
  /\ (exists after,
        join 8 me (Some existing) s
        = (Ok tt, mkSt (<[me := after]> (world s)) (GetInfo existing :: log s))
        /\ successor after = succ
        /\ predecessor after = None
        /\ fingerTable after !! 0%nat = Some (Some succ)).
Proof.
  intros me existing s succ.
  assert (H1 : world s !! me = Some (node_at 3002 s))
    by (vm_compute; reflexivity).
  assert (H2 : world s !! existing = Some (node_at 3000 s))
    by (vm_compute; reflexivity).
  assert (H3 : findSuccessor 8 (node_of_info (info (node_at 3000 s)))
                 (node_url (node_at 3002 s))
                 (mkSt (world s) (GetInfo existing :: log s))
               = (Ok succ, mkSt (world s) (GetInfo existing :: log s)))
    by (vm_compute; reflexivity).
  split; [split; [exact H1 | split; [exact H2 | exact H3]]|]. split.
  - exact (proj1 (join_sets_ring_pointers 8 me (node_at 3002 s) s H1)).
  - exact (proj2 (join_sets_ring_pointers 8 me (node_at 3002 s) s H1)
             existing (node_at 3000 s) succ _ H2 H3).
Defined.

(** * Further properties *)

(** ** Identifier space *)

(** X1.  Two distinct points [a] and [b] cut the ring in two arcs: a key
    of the ring is in (a, b] exactly when it is not in (b, a]. *)
Theorem inInterval_arcs_partition (key a b ringSize : Z) :
  0 <= key < ringSize -> a <> b ->
  inInterval (Big key) (Big a) (Big b) (Big ringSize)
  = negb (inInterval (Big key) (Big b) (Big a) (Big ringSize)).
Proof.
  intros Hk Hab. rewrite !inInterval_Big.
  destruct (Z.ltb_spec a b), (Z.ltb_spec b a), (Z.ltb_spec a key),
           (Z.ltb_spec b key), (Z.leb_spec key a), (Z.leb_spec key b),
           (Z.ltb_spec key ringSize), (Z.leb_spec 0 key);
    simpl; try reflexivity; lia.
Qed.

Lemma inInterval_arcs_partition_witness :
  (0 <= 30 < 32 /\ 25 <> 5)
  /\ inInterval (Big 30) (Big 25) (Big 5) (Big 32)
     = negb (inInterval (Big 30) (Big 5) (Big 25) (Big 32)).
Proof.
  split; [lia|]. apply (inInterval_arcs_partition 30 25 5 32); lia.
Defined.

Section DigestPrefix.

Let acc (l : list Z) (a : Z) : Z :=
  fold_left (fun id b => Z.shiftl id 8 + b) l a.

Lemma sha1_length s : length (sha1 s) = 20%nat.
Proof. unfold sha1, SHA1.digest. rewrite !length_app. reflexivity. Qed.

Lemma acc_shift l : forall a,
  acc l a = a * 2 ^ (8 * Z.of_nat (length l)) + acc l 0.
Proof.
  unfold acc. induction l as [|b l IH]; intros a; simpl fold_left.
  - simpl. lia.
  - rewrite IH. rewrite (IH (Z.shiftl 0 8 + b)).
    rewrite !Z.shiftl_mul_pow2 by lia.
    replace (8 * Z.of_nat (length (b :: l)))
      with (8 + 8 * Z.of_nat (length l)) by (simpl length; lia).
    rewrite Z.pow_add_r by lia. ring.
Qed.

Lemma acc_take l k :
  Forall is_byte l -> (k <= length l)%nat ->
  acc (take k l) 0 = acc l 0 / 2 ^ (8 * Z.of_nat (length l - k)).
Proof.
  intros Hl Hk.
  assert (E : acc l 0 = acc (take k l) 0 * 2 ^ (8 * Z.of_nat (length l - k))
                        + acc (drop k l) 0).
  { rewrite <- (take_drop k l) at 1. unfold acc at 1.
    rewrite fold_left_app. fold (acc (take k l) 0).
    fold (acc (drop k l) (acc (take k l) 0)).
    rewrite acc_shift. rewrite length_drop. reflexivity. }
  pose proof (accumulate_bound (drop k l) (Forall_drop _ _ _ Hl) 0 0
                ltac:(lia) ltac:(simpl; lia)) as Hb.
  fold (acc (drop k l) 0) in Hb. rewrite length_drop in Hb.
  rewrite Z.add_0_l in Hb.
  apply (Z.div_unique_pos _ _ _ (acc (drop k l) 0)); [exact Hb|].
  rewrite E. ring.
Qed.

Lemma hashToID_whole_digest s :
  hashToID s 160 = fold_left (fun id b => Z.shiftl id 8 + b) (sha1 s) 0.
Proof.
  unfold hashToID, slice0. change (ceil_div8 160) with 20.
  change (20 <? 0) with false. cbv iota.
  rewrite take_ge by (rewrite sha1_length; change (Z.to_nat 20) with 20%nat; lia).
  reflexivity.
Qed.

(** The identifier is the digest, read as a number of 160 bits, without
    its [160 - m] low bits. *)
Lemma hashToID_leading_bits s m :
  0 <= m <= 160 ->
  hashToID s m = hashToID s 160 / 2 ^ (160 - m).
Proof.
  intros Hm.
  assert (H160 : hashToID s 160 = acc (sha1 s) 0).
  { apply hashToID_whole_digest. }
  rewrite H160. unfold hashToID.
  pose proof (ceil_div8_spec m) as Hc.
  set (B := ceil_div8 m) in *.
  unfold slice0. destruct (Z.ltb_spec B 0) as [?|_]; [lia|].
  fold (acc (take (Z.to_nat B) (sha1 s)) 0).
  rewrite acc_take by (try apply sha1_bytes; rewrite sha1_length; lia).
  rewrite sha1_length.
  replace (8 * Z.of_nat (20 - Z.to_nat B)) with (160 - 8 * B) by lia.
  destruct (Z.ltb_spec 0 (B * 8 - m)) as [He|He].
  - rewrite Z.shiftr_div_pow2 by lia.
    rewrite Z.div_div
      by first [apply Z.pow_pos_nonneg; lia | apply Z.pow_nonzero; lia].
    rewrite <- Z.pow_add_r by lia. f_equal. f_equal. lia.
  - f_equal. f_equal. lia.
Qed.

End DigestPrefix.

(** X2.  For widths up to 160 the identifier is made of the leading bits
    of the digest: the identifier of a string on a narrower ring is its
    identifier on a wider ring without the low bits. *)
Theorem hashToID_prefix_of_wider (s : string) (m m' : Z) :
  0 <= m <= m' -> m' <= 160 ->
  hashToID s m = Z.shiftr (hashToID s m') (m' - m).
Proof.
  intros Hm Hm'.
  rewrite (hashToID_leading_bits s m), (hashToID_leading_bits s m') by lia.
  rewrite Z.shiftr_div_pow2 by lia.
  rewrite Z.div_div
      by first [apply Z.pow_pos_nonneg; lia | apply Z.pow_nonzero; lia].
  rewrite <- Z.pow_add_r by lia. f_equal. f_equal. lia.
Qed.

Lemma hashToID_prefix_of_wider_witness :
  (0 <= 5 <= 6 /\ 6 <= 160)
  /\ hashToID "http://localhost:3000" 5
     = Z.shiftr (hashToID "http://localhost:3000" 6) (6 - 5).
Proof.
  split; [lia|]. apply (hashToID_prefix_of_wider "http://localhost:3000" 5 6); lia.
Defined.

(** X3.  The digest has 160 bits: for a width above 160 the identifier is
    the whole digest without the bits that pad [m] to a multiple of 8, so
    no identifier reaches [2^160] however wide the ring. *)
Theorem hashToID_above_digest_width (s : string) (m : Z) :
  160 <= m ->
  hashToID s m = Z.shiftr (hashToID s 160) (ceil_div8 m * 8 - m)
  /\ 0 <= hashToID s m < 2 ^ 160.
Proof.
  intros Hm.
  pose proof (ceil_div8_spec m) as Hc.
  assert (E : hashToID s m = Z.shiftr (hashToID s 160) (ceil_div8 m * 8 - m)).
  { unfold hashToID at 1. set (B := ceil_div8 m) in *.
    unfold slice0. destruct (Z.ltb_spec B 0) as [?|_]; [lia|].
    rewrite take_ge by (rewrite sha1_length; lia).
    rewrite <- hashToID_whole_digest.
    destruct (Z.ltb_spec 0 (B * 8 - m)) as [He|He]; [reflexivity|].
    replace (B * 8 - m) with 0 by lia. rewrite Z.shiftr_0_r. reflexivity. }
  split; [exact E|]. rewrite E.
  destruct (hashToID_range s 160 ltac:(lia)) as [Hlo Hhi].
  set (h := hashToID s 160) in *. set (X := 2 ^ 160) in *.
  assert (Hp : 0 < 2 ^ (ceil_div8 m * 8 - m)) by (apply Z.pow_pos_nonneg; lia).
  rewrite Z.shiftr_div_pow2 by lia. split.
  - apply Z.div_pos; [exact Hlo | exact Hp].
  - apply Z.le_lt_trans with h; [|exact Hhi].
    apply Z.div_le_upper_bound; [exact Hp|].
    rewrite <- (Z.mul_1_l h) at 1.
    apply Z.mul_le_mono_nonneg_r; [exact Hlo | lia].
Qed.

Lemma hashToID_above_digest_width_witness :
  160 <= 161
  /\ hashToID "k" 161 = Z.shiftr (hashToID "k" 160) (ceil_div8 161 * 8 - 161)
  /\ 0 <= hashToID "k" 161 < 2 ^ 160.
Proof.
  split; [lia|]. apply (hashToID_above_digest_width "k" 161). lia.
Defined.

(** ** Lookup and join *)

(** X4.  [closestPrecedingNode] returns the finger of highest index whose
    identifier is in (this.id, key], or the node's own entry when no finger
    is; nothing else fits that description, so the answer is never a
    finger outside the interval nor a lower finger when a higher one
    qualifies. *)
Theorem closestPrecedingNode_highest_qualifying_finger (this : Node) (key : Z) :
  closest_preceding this key (closestPrecedingNode this key)
  /\ (forall r, closest_preceding this key r -> r = closestPrecedingNode this key)
  /\ (closestPrecedingNode this key = self_entry this
      \/ exists i, fingerTable this !! i = Some (Some (closestPrecedingNode this key))
                   /\ qualifies this key (closestPrecedingNode this key) = true).
Proof.
  split; [apply closestPrecedingNode_spec|]. split.
  - intros r Hr. apply closest_preceding_iff, Hr.
  - destruct (closestPrecedingNode_spec this key)
      as [(i & ft & Hl & Hq & _ & E)|[_ E]].
    + right. exists i. rewrite E. split; assumption.
    + left. exact E.
Qed.

Section LookupReads.

(** The requests of a lookup: fetches of published states, at most one per
    unit of fuel; no node changes; the node the loop ends on is the one it
    started from or the published state of a running process. *)
Lemma lookup_trace fuel key :
  forall current s,
    let out := lookup fuel key current s in
    world (snd out) = world s
    /\ (exists l, log (snd out) = (l ++ log s)%list
                  /\ Forall (fun q => is_info q = true) l
                  /\ (length l <= fuel)%nat)
    /\ (forall last, fst out = Ok last ->
          last = current
          \/ exists u peer, world s !! u = Some peer
                            /\ last = node_of_info (info peer)).
Proof.
  induction fuel as [|fuel IH]; intros current s out.
  - subst out. simpl.
    destruct (negb _); [destruct (js_seq _ _)|]; simpl;
      (split; [reflexivity|]); (split; [exists []; repeat split; auto|]);
      intros last H; inversion H; auto.
  - subst out. simpl.
    destruct (negb _); [destruct (js_seq _ _)|]; simpl;
      try ((split; [reflexivity|]);
           (split; [exists []; repeat split; auto; simpl; lia|]);
           intros last H; inversion H; auto).
    unfold bind.
    destruct (fetchNodeInfo_cases (url (closestPrecedingNode current key)) s)
      as [(peer & W & F)|[W F]]; rewrite F.
    + specialize (IH (node_of_info (info peer))
                     (mkSt (world s)
                           (GetInfo (url (closestPrecedingNode current key)) :: log s))).
      simpl in IH. destruct IH as (Hw & (l & Hl & Hf & Hn) & Hlast).
      split; [exact Hw|]. split.
      * exists (l ++ [GetInfo (url (closestPrecedingNode current key))])%list.
        rewrite Hl. rewrite <- app_assoc. simpl. repeat split.
        -- apply Forall_app. split; [exact Hf|]. repeat constructor.
        -- rewrite length_app. simpl. lia.
      * intros last H. right. destruct (Hlast last H) as [->|(u & p & Hu & ->)].
        -- eauto.
        -- eauto.
    + simpl. split; [reflexivity|]. split.
      * exists [GetInfo (url (closestPrecedingNode current key))].
        repeat split; [repeat constructor | simpl; lia].
      * intros last H. discriminate.
Qed.

Lemma findSuccessor_world fuel this keyStr s r s' :
  findSuccessor fuel this keyStr s = (r, s') -> world s' = world s.
Proof.
  unfold findSuccessor, bind. intros H.
  destruct (lookup _ _ _ _) as [[last|e|] s2] eqn:L; inversion H; subst;
    apply lookup_world in L; exact L.
Qed.

End LookupReads.

(** X5.  Whatever its outcome, [findSuccessor] changes no node: all it
    sends are fetches of published states ([GET /info]), at most one per
    iteration of its loop. *)
Theorem findSuccessor_only_reads
  (fuel : nat) (this : Node) (keyStr : string) (s : St) :
  let out := findSuccessor fuel this keyStr s in
  world (snd out) = world s
  /\ exists l, log (snd out) = (l ++ log s)%list
               /\ Forall (fun q => is_info q = true) l
               /\ (length l <= fuel)%nat.
Proof.
  intros out. subst out. unfold findSuccessor, bind.
  pose proof (lookup_trace fuel (hashToID keyStr (node_m this)) this s)
    as (Hw & Hl & _).
  destruct (lookup fuel (hashToID keyStr (node_m this)) this s)
    as [[last|e|] s1]; simpl in *; split; assumption.
Qed.

(** X6.  An entry returned by [findSuccessor] is never made up: it is the
    successor pointer of the node the lookup was started on, or the
    successor pointer that a running process publishes. *)
Theorem findSuccessor_returns_a_published_successor
  (fuel : nat) (this : Node) (keyStr : string) (s : St) (found : NodeEntry) :
  fst (findSuccessor fuel this keyStr s) = Ok found ->
  found = successor this
  \/ exists u peer, world s !! u = Some peer
                    /\ found = stringifyBigInt (successor peer).
Proof.
  unfold findSuccessor, bind.
  pose proof (lookup_trace fuel (hashToID keyStr (node_m this)) this s)
    as (_ & _ & Hlast).
  destruct (lookup fuel (hashToID keyStr (node_m this)) this s)
    as [[last|e|] s1]; simpl in *; intros H; inversion H; subst.
  destruct (Hlast last eq_refl) as [->|(u & peer & Hu & ->)].
  - left. reflexivity.
  - right. exists u, peer. split; [exact Hu | reflexivity].
Qed.

Lemma findSuccessor_returns_a_published_successor_witness :
  let s := two_node_ring 5 3000 3006 in
  let this := node_at 3006 s in
  let found := mkEntry (Dec 28) (localhost 3006) in
  fst (findSuccessor 8 this "http://localhost:3006#finger0" s) = Ok found
  /\ (found = successor this
      \/ exists u peer, world s !! u = Some peer
                        /\ found = stringifyBigInt (successor peer)).
Proof.
  intros s this found.
  assert (H : fst (findSuccessor 8 this "http://localhost:3006#finger0" s)
              = Ok found) by (vm_compute; reflexivity).
  split; [exact H|].
  exact (findSuccessor_returns_a_published_successor
           8 this "http://localhost:3006#finger0" s found H).
Defined.

(** X7.  A join through an existing node that does not end well (the
    bootstrap node does not answer, or the lookup fails or does not end)
    leaves every node as it was: predecessor, successor and fingers are
    assigned only after the lookup has returned. *)
Theorem join_failure_changes_nothing
  (fuel : nat) (me existing : string) (s : St) :
  fst (join fuel me (Some existing) s) <> Ok tt ->
  world (snd (join fuel me (Some existing) s)) = world s.
Proof.
  destruct (join fuel me (Some existing) s) as [r s'] eqn:J. simpl.
  intros Hr. unfold join in J. unfold bind at 1 in J.
  destruct (world s !! me) as [this|] eqn:Hme.
  - rewrite (get_node_ok _ _ _ Hme) in J.
    unfold bind at 1 in J. unfold bind at 1 in J.
    destruct (fetchNodeInfo_cases existing s) as [(peer & W & F)|[W F]];
      rewrite F in J; [|inversion J; reflexivity].
    unfold bind at 1 in J.
    destruct (findSuccessor fuel (node_of_info (info peer)) (node_url this)
                (mkSt (world s) (GetInfo existing :: log s)))
      as [[succ|e|] s1] eqn:Hfind;
      pose proof (findSuccessor_world _ _ _ _ _ _ Hfind) as Hw;
      simpl in Hw; try (inversion J; subst; exact Hw).
    unfold bind at 1 in J.
    erewrite modify_node_ok in J by (rewrite Hw; exact Hme).
    erewrite modify_node_ok in J by (simpl; apply lookup_insert_eq).
    erewrite modify_node_ok in J by (simpl; apply lookup_insert_eq).
    inversion J; subst. contradiction Hr. reflexivity.
  - unfold get_node in J. rewrite Hme in J. inversion J. reflexivity.
Qed.

Lemma join_failure_changes_nothing_witness :
  let s := start 5 3002 (mkSt ∅ []) in
  fst (join 8 (localhost 3002) (Some (localhost 3000)) s)
  = Err (RequestFailed (GetInfo (localhost 3000)))
  /\ world (snd (join 8 (localhost 3002) (Some (localhost 3000)) s)) = world s.
Proof.
  intros s. split; [vm_compute; reflexivity|].
  apply (join_failure_changes_nothing 8 (localhost 3002) (localhost 3000) s).
  assert (E : fst (join 8 (localhost 3002) (Some (localhost 3000)) s)
              = Err (RequestFailed (GetInfo (localhost 3000))))
    by (vm_compute; reflexivity).
  rewrite E. discriminate.
Defined.

(** ** notify and stabilize *)

(** X8.  A notify repeated by the same candidate changes nothing more:
    the second one leaves the node as the first left it. *)
Theorem notify_twice_is_once (this : Node) (candidate : NodeEntry) :
  notify (notify this candidate) candidate = notify this candidate
  /\ forall body_id body_id' body_url,
       notify_handler (notify_handler this body_id body_url) body_id' body_url
       = notify_handler this body_id body_url.
Proof.
  assert (H : forall n c, notify (notify n c) c = notify n c).
  { intros n c.
    assert (Hr : notify n c = n \/ notify n c = set_predecessor (Some c) n).
    { unfold notify. destruct (predecessor n);
        [destruct (inInterval _ _ _ _)|]; auto. }
    destruct Hr as [Hr|Hr]; rewrite Hr; [exact Hr|].
    unfold notify. simpl. destruct (inInterval _ _ _ _); reflexivity. }
  split; [apply H|].
  intros body_id body_id' body_url. unfold notify_handler.
  replace (node_m (notify this (mkEntry (Big (hashToID body_url (node_m this))) body_url)))
    with (node_m this).
  - apply H.
  - unfold notify. destruct (predecessor this);
      [destruct (inInterval _ _ _ _)|]; reflexivity.
Qed.

(** On the ring, once a candidate strictly inside (p, n) has been
    preferred to [p], [p] is not in (candidate, n]. *)
Lemma inInterval_not_back hc hp n ringSize :
  0 <= hc < ringSize -> 0 <= hp < ringSize ->
  hc <> n -> hp <> n ->
  inInterval (Big hc) (Big hp) (Big n) (Big ringSize) = true ->
  inInterval (Big hp) (Big hc) (Big n) (Big ringSize) = false.
Proof.
  intros Hc Hp Hcn Hpn. rewrite !inInterval_Big.
  destruct (Z.ltb_spec hp n), (Z.ltb_spec hc n), (Z.ltb_spec hp hc),
           (Z.ltb_spec hc hp), (Z.leb_spec hc n), (Z.leb_spec hp n),
           (Z.ltb_spec hc ringSize), (Z.ltb_spec hp ringSize),
           (Z.leb_spec 0 hc), (Z.leb_spec 0 hp);
    simpl; intros Hin; try reflexivity; try discriminate; lia.
Qed.

(** X9.  The predecessor only moves closer: on a ring of size [2^m], after
    a candidate has been adopted in place of the predecessor [p], a notify
    from [p] is ignored, provided neither of the two has the node's own
    identifier. *)
Theorem notify_predecessor_only_moves_closer
  (this : Node) (p candidate : NodeEntry) :
  0 <= node_m this ->
  ringSize this = Z.shiftl 1 (node_m this) ->
  predecessor this = Some p ->
  hashToID (url candidate) (node_m this) <> node_id this ->
  hashToID (url p) (node_m this) <> node_id this ->
  predecessor (notify this candidate) = Some candidate ->
  predecessor (notify (notify this candidate) p) = Some candidate.
Proof.
  intros Hm Hring Hp Hc Hpn Hadopt.
  assert (Hr : forall u, 0 <= hashToID u (node_m this) < ringSize this).
  { intros u. rewrite Hring, Z.shiftl_1_l. apply hashToID_range, Hm. }
  unfold notify in Hadopt. rewrite Hp in Hadopt.
  destruct (inInterval (Big (hashToID (url candidate) (node_m this)))
                       (Big (hashToID (url p) (node_m this)))
                       (Big (node_id this)) (Big (ringSize this))) eqn:I.
  - unfold notify at 2. rewrite Hp, I. unfold notify. simpl.
    rewrite (inInterval_not_back _ _ _ _ (Hr _) (Hr _) Hc Hpn I). reflexivity.
  - rewrite Hp in Hadopt. inversion Hadopt; subst candidate.
    unfold notify at 2. rewrite Hp, I. unfold notify. rewrite Hp, I.
    exact Hp.
Qed.

Lemma notify_predecessor_only_moves_closer_witness :
  let this := node_at 3000 (two_node_ring 5 3000 3002) in
  let p := mkEntry (Big 11) (localhost 3002) in
  let candidate := mkEntry (Big 31) (localhost 3001) in
  (0 <= node_m this
   /\ ringSize this = Z.shiftl 1 (node_m this)
   /\ predecessor this = Some p
   /\ hashToID (url candidate) (node_m this) <> node_id this
   /\ hashToID (url p) (node_m this) <> node_id this
   /\ predecessor (notify this candidate) = Some candidate)
  /\ predecessor (notify (notify this candidate) p) = Some candidate.
Proof.
  intros this p candidate.
  assert (H1 : 0 <= node_m this) by (vm_compute; discriminate).
  assert (H2 : ringSize this = Z.shiftl 1 (node_m this))
    by (vm_compute; reflexivity).
  assert (H3 : predecessor this = Some p) by (vm_compute; reflexivity).
  assert (H4 : hashToID (url candidate) (node_m this) <> node_id this)
    by (vm_compute; discriminate).
  assert (H5 : hashToID (url p) (node_m this) <> node_id this)
    by (vm_compute; discriminate).
  assert (H6 : predecessor (notify this candidate) = Some candidate)
    by (vm_compute; reflexivity).
  split; [repeat (split; [assumption|]); assumption|].
  exact (notify_predecessor_only_moves_closer this p candidate H1 H2 H3 H4 H5 H6).
Defined.

Section StabilizeAgain.

Lemma exec_eq {A} (c : M A) s r s' : c s = (r, s') -> exec c s = s'.
Proof. intros H. unfold exec. rewrite H. reflexivity. Qed.

Lemma iter_exec_S {A} (c : M A) n s :
  Nat.iter (S n) (exec c) s = Nat.iter n (exec c) (exec c s).
Proof.
  induction n as [|n IH]; [reflexivity|].
  simpl in *. rewrite IH. reflexivity.
Qed.

End StabilizeAgain.

(** X10.  A node whose identifier is below its successor's, and which its
    successor stores as predecessor, is at a fixed point of [stabilize]:
    however many times it runs, each run returns, sends its fetch and its
    notify, and no node of the ring changes. *)
Theorem stabilize_below_successor_repeats_without_change
  (me : string) (this peer : Node) (n : nat) (s : St) :
  world s !! me = Some this ->
  node_url this = me ->
  url (successor this) <> me ->
  world s !! url (successor this) = Some peer ->
  predecessor peer = Some (self_entry this) ->
  node_id this = hashToID me (node_m peer) ->
  node_id this < num (id (successor this)) ->
  world (Nat.iter n (exec (stabilize me)) s) = world s
  /\ fst (stabilize me (Nat.iter n (exec (stabilize me)) s)) = Ok tt
  /\ length (log (Nat.iter n (exec (stabilize me)) s))
     = (2 * n + length (log s))%nat.
Proof.
  intros Hme Hurl Hsu Hpeer Hpred Hid Hlt.
  revert s Hme Hpeer.
  induction n as [|n IH]; intros s Hme Hpeer.
  - simpl. repeat split; try lia.
    rewrite (stabilize_fixed_point_below_successor me s this Hme Hurl peer
               Hsu Hpeer Hpred Hid Hlt). reflexivity.
  - rewrite iter_exec_S.
    pose proof (stabilize_fixed_point_below_successor me s this Hme Hurl peer
                  Hsu Hpeer Hpred Hid Hlt) as E.
    rewrite (exec_eq _ _ _ _ E).
    set (s1 := mkSt (world s) _).
    destruct (IH s1 Hme Hpeer) as (Hw & Hok & Hlen).
    split; [exact Hw|]. split; [exact Hok|].
    rewrite Hlen. unfold s1. cbn [log length]. lia.
Qed.

Lemma stabilize_below_successor_repeats_without_change_witness :
  let s := two_node_ring 5 3000 3002 in
  let me := localhost 3000 in
  let this := node_at 3000 s in
  let peer := node_at 3002 s in
  (world s !! me = Some this
   /\ node_url this = me
   /\ url (successor this) <> me
   /\ world s !! url (successor this) = Some peer
   /\ predecessor peer = Some (self_entry this)
   /\ node_id this = hashToID me (node_m peer)
   /\ node_id this < num (id (successor this)))
  /\ world (Nat.iter 3 (exec (stabilize me)) s) = world s
  /\ fst (stabilize me (Nat.iter 3 (exec (stabilize me)) s)) = Ok tt
  /\ length (log (Nat.iter 3 (exec (stabilize me)) s))
     = (2 * 3 + length (log s))%nat.
Proof.
  intros s me this peer.
  assert (H1 : world s !! me = Some this) by (vm_compute; reflexivity).
  assert (H2 : node_url this = me) by (vm_compute; reflexivity).
  assert (H3 : url (successor this) <> me) by (vm_compute; discriminate).
  assert (H4 : world s !! url (successor this) = Some peer)
    by (vm_compute; reflexivity).
  assert (H5 : predecessor peer = Some (self_entry this))
    by (vm_compute; reflexivity).
  assert (H6 : node_id this = hashToID me (node_m peer))
    by (vm_compute; reflexivity).
  assert (H7 : node_id this < num (id (successor this)))
    by (vm_compute; reflexivity).
  split; [repeat (split; [assumption|]); assumption|].
  exact (stabilize_below_successor_repeats_without_change
           me this peer 3 s H1 H2 H3 H4 H5 H6 H7).
Defined.

(** X11.  A single-node ring stays one: however many times [stabilize]
    runs on a node that is its own successor and predecessor, the node
    still designates itself both ways, and no other process changes. *)
Theorem solo_ring_stays_solo
  (me : string) (n : nat) (this : Node) (s : St) :
  world s !! me = Some this ->
  node_url this = me ->
  url (successor this) = me ->
  num (id (successor this)) = node_id this ->
  predecessor this = Some (self_entry this) ->
  node_id this = hashToID me (node_m this) ->
  0 <= node_m this ->
  ringSize this = Z.shiftl 1 (node_m this) ->
  exists after,
    world (Nat.iter n (exec (stabilize me)) s) !! me = Some after
    /\ url (successor after) = me
    /\ num (id (successor after)) = node_id this
    /\ predecessor after = Some (self_entry this)
    /\ kvStore after = kvStore this
    /\ forall u, u <> me ->
         world (Nat.iter n (exec (stabilize me)) s) !! u = world s !! u.
Proof.
  revert this s. induction n as [|n IH];
    intros this s Hme Hurl Hsu Hnum Hpred Hid Hm Hring.
  - exists this. simpl. repeat split; assumption.
  - rewrite iter_exec_S.
    destruct (stabilize_fixed_point_solo me s this Hme Hurl Hsu Hnum Hpred
                Hid Hm Hring) as (E & A1 & A2 & A3).
    rewrite (exec_eq _ _ _ _ E).
    set (after := set_successor (mkEntry (Dec (node_id this)) me) this) in *.
    set (s1 := mkSt _ _).
    destruct (IH after s1) as (after' & H1 & H2 & H3 & H4 & H5 & H6).
    + unfold s1. cbn [world]. apply lookup_insert_eq.
    + exact Hurl.
    + exact A1.
    + exact A2.
    + exact A3.
    + exact Hid.
    + exact Hm.
    + exact Hring.
    + exists after'. repeat split; try assumption.
      intros u Hu. rewrite (H6 u Hu). unfold s1. cbn [world].
      apply lookup_insert_ne. congruence.
Qed.

Lemma solo_ring_stays_solo_witness :
  let s := start 5 3000 (mkSt ∅ []) in
  let me := localhost 3000 in
  let this := node_at 3000 s in
  (world s !! me = Some this
   /\ node_url this = me
   /\ url (successor this) = me
   /\ num (id (successor this)) = node_id this
   /\ predecessor this = Some (self_entry this)
   /\ node_id this = hashToID me (node_m this)
   /\ 0 <= node_m this
   /\ ringSize this = Z.shiftl 1 (node_m this))
  /\ exists after,
       world (Nat.iter 4 (exec (stabilize me)) s) !! me = Some after
       /\ url (successor after) = me
       /\ num (id (successor after)) = node_id this
       /\ predecessor after = Some (self_entry this)
       /\ kvStore after = kvStore this
       /\ forall u, u <> me ->
            world (Nat.iter 4 (exec (stabilize me)) s) !! u = world s !! u.
Proof.
  intros s me this.
  assert (H1 : world s !! me = Some this) by (vm_compute; reflexivity).
  assert (H2 : node_url this = me) by (vm_compute; reflexivity).
  assert (H3 : url (successor this) = me) by (vm_compute; reflexivity).
  assert (H4 : num (id (successor this)) = node_id this)
    by (vm_compute; reflexivity).
  assert (H5 : predecessor this = Some (self_entry this))
    by (vm_compute; reflexivity).
  assert (H6 : node_id this = hashToID me (node_m this))
    by (vm_compute; reflexivity).
  assert (H7 : 0 <= node_m this) by (vm_compute; discriminate).
  assert (H8 : ringSize this = Z.shiftl 1 (node_m this))
    by (vm_compute; reflexivity).
  split; [repeat (split; [assumption|]); assumption|].
  exact (solo_ring_stays_solo me 4 this s H1 H2 H3 H4 H5 H6 H7 H8).
Defined.

(** ** Two processes form a ring *)

Section RunSteps.

Lemma set_successor_same n : set_successor (successor n) n = n.
Proof. destruct n. reflexivity. Qed.

(** One run of [stabilize] with every peer up. *)
Lemma stabilize_run me s this peer target :
  world s !! me = Some this ->
  js_seq (id (successor this)) (Big (node_id this))
    && is_null (predecessor this) = false ->
  world s !! url (successor this) = Some peer ->
  let succ := stabilize_choice this
                (option_map stringifyBigInt (predecessor peer)) in
  let w := <[me := set_successor succ this]> (world s) in
  w !! url succ = Some target ->
  stabilize me s
  = (Ok tt,
     mkSt (<[url succ := notify_handler target (toString (node_id this))
                           (node_url this)]> w)
          (PostNotify (url succ) (toString (node_id this)) (node_url this)
             :: GetInfo (url (successor this)) :: log s)).
Proof.
  intros Hme Hskip Hpeer succ w Htarget.
  unfold stabilize. unfold bind at 1. rewrite (get_node_ok _ _ _ Hme).
  rewrite Hskip.
  unfold bind at 1. rewrite (fetchNodeInfo_ok _ _ _ Hpeer).
  change (predecessor (node_of_info (info peer)))
    with (option_map stringifyBigInt (predecessor peer)).
  subst succ w. unfold stabilize_choice in *.
  destruct (option_map stringifyBigInt (predecessor peer)) as [x'|].
  - destruct (inInterval _ _ _ _).
    + unfold bind at 1. erewrite modify_node_ok by (cbn [world]; exact Hme).
      unfold bind at 1.
      erewrite get_node_ok by (cbn [world]; apply lookup_insert_eq).
      unfold post_notify, bind, send. cbn [world log successor set_successor
        node_id node_url url].
      rewrite Htarget. reflexivity.
    + rewrite set_successor_same in *.
      rewrite insert_id in Htarget by exact Hme.
      rewrite (insert_id (world s) me this) by exact Hme.
      unfold bind at 1, ret at 1. unfold bind at 1.
      erewrite get_node_ok by (cbn [world]; exact Hme).
      unfold post_notify, bind, send. cbn [world log].
      rewrite Htarget. reflexivity.
  - rewrite set_successor_same in *.
      rewrite insert_id in Htarget by exact Hme.
      rewrite (insert_id (world s) me this) by exact Hme.
    unfold bind at 1, ret at 1. unfold bind at 1.
    erewrite get_node_ok by (cbn [world]; exact Hme).
    unfold post_notify, bind, send. cbn [world log].
    rewrite Htarget. reflexivity.
Qed.

Lemma join_none_run fuel me this s :
  world s !! me = Some this ->
  join fuel me None s
  = (Ok tt,
     mkSt (<[me := set_fingerTable (js_set (fingerTable this) 0 (self_entry this))
                     (set_successor (self_entry this)
                        (set_predecessor (Some (self_entry this)) this))]>
             (world s))
          (log s)).
Proof.
  intros Hme. unfold join, bind. rewrite (get_node_ok _ _ _ Hme).
  rewrite (modify_node_ok _ _ _ _ Hme).
  erewrite modify_node_ok by (cbn [world]; apply lookup_insert_eq).
  erewrite modify_node_ok by (cbn [world]; apply lookup_insert_eq).
  cbn [world log]. rewrite !insert_insert_eq. reflexivity.
Qed.

Lemma join_some_run fuel me this existing peer succ s1 s :
  world s !! me = Some this ->
  world s !! existing = Some peer ->
  findSuccessor fuel (node_of_info (info peer)) (node_url this)
                (mkSt (world s) (GetInfo existing :: log s))
  = (Ok succ, s1) ->
  world s1 = world s ->
  join fuel me (Some existing) s
  = (Ok tt,
     mkSt (<[me := set_fingerTable (js_set (fingerTable this) 0 succ)
                     (set_successor succ (set_predecessor None this))]>
             (world s))
          (log s1)).
Proof.
  intros Hme Hex Hfind Hw.
  unfold join. unfold bind at 1. rewrite (get_node_ok _ _ _ Hme).
  unfold bind at 1. unfold bind at 1.
  rewrite (fetchNodeInfo_ok _ _ _ Hex).
  unfold bind at 1. rewrite Hfind.
  unfold bind at 1.
  erewrite modify_node_ok by (rewrite Hw; exact Hme).
  erewrite modify_node_ok by (cbn [world]; apply lookup_insert_eq).
  erewrite modify_node_ok by (cbn [world]; apply lookup_insert_eq).
  cbn [world log]. rewrite !insert_insert_eq, Hw. reflexivity.
Qed.

End RunSteps.

Lemma inInterval_degenerate_dec key start ringSize :
  0 <= key < ringSize ->
  inInterval (Dec key) (Big start) (Big start) (Big ringSize) = true.
Proof.
  intros Hk. unfold inInterval, js_gt, js_lt, js_le, js_ge. simpl.
  rewrite Z.ltb_irrefl.
  destruct (Z.ltb_spec start key), (Z.ltb_spec key ringSize),
           (Z.ltb_spec key 0); simpl; try reflexivity; lia.
Qed.

(** X12.  Two processes with distinct addresses, each started alone; the
    second joins through the first, then each runs [stabilize] once, the
    joiner first.  Whatever the addresses and the width [m], the two then
    designate each other as successor and as predecessor, after five
    requests.  The successors' identifiers are held as the decimal
    strings the [/info] replies carried. *)
Theorem two_nodes_point_at_each_other
  (m : Z) (a b : string) (fuel : nat) :
  0 <= m -> a <> b ->
  let s := two_nodes m a b fuel in
  let ea := hashToID a m in
  let eb := hashToID b m in
  exists A B,
    world s !! a = Some A /\ world s !! b = Some B
    /\ successor A = mkEntry (Dec eb) b
    /\ predecessor A = Some (mkEntry (Big eb) b)
    /\ successor B = mkEntry (Dec ea) a
    /\ predecessor B = Some (mkEntry (Big ea) a)
    /\ log s = [PostNotify b (toString ea) a; GetInfo a;
                PostNotify a (toString eb) b; GetInfo a; GetInfo a].
Proof.
  intros Hm Hab s ea eb. subst s. unfold two_nodes.
  assert (Hba : b <> a) by congruence.
  assert (Hra : 0 <= ea < Z.shiftl 1 m)
    by (rewrite Z.shiftl_1_l; apply hashToID_range, Hm).
  assert (Hrb : 0 <= eb < Z.shiftl 1 m)
    by (rewrite Z.shiftl_1_l; apply hashToID_range, Hm).
  set (w0 := <[b := new_Node b m 1000]> (<[a := new_Node a m 1000]> ∅)).
  (* join(null) on each *)
  set (A0 := solo_node m a). set (B0 := solo_node m b).
  assert (E1 : exec (join 0 a None) (mkSt w0 []) = mkSt (<[a := A0]> w0) []).
  { apply exec_eq with (r := Ok tt).
    rewrite (join_none_run 0 a (new_Node a m 1000)); [reflexivity|].
    cbn [world]. unfold w0. rewrite lookup_insert_ne by exact Hba.
    apply lookup_insert_eq. }
  rewrite E1. clear E1. set (w1 := <[a := A0]> w0).
  assert (E2 : exec (join 0 b None) (mkSt w1 []) = mkSt (<[b := B0]> w1) []).
  { apply exec_eq with (r := Ok tt).
    rewrite (join_none_run 0 b (new_Node b m 1000)); [reflexivity|].
    cbn [world]. unfold w1, w0. rewrite lookup_insert_ne by exact Hab.
    apply lookup_insert_eq. }
  rewrite E2. clear E2. set (w2 := <[b := B0]> w1).
  assert (Ha2 : w2 !! a = Some A0).
  { unfold w2, w1. rewrite lookup_insert_ne by exact Hba.
    apply lookup_insert_eq. }
  assert (Hb2 : w2 !! b = Some B0) by apply lookup_insert_eq.
  (* join through a *)
  set (sa := mkEntry (Dec ea) a).
  set (B1 := set_fingerTable (js_set (fingerTable B0) 0 sa)
               (set_successor sa (set_predecessor None B0))).
  assert (E3 : exec (join fuel b (Some a)) (mkSt w2 [])
               = mkSt (<[b := B1]> w2) [GetInfo a]).
  { apply exec_eq with (r := Ok tt).
    rewrite (join_some_run fuel b B0 a A0 sa
               (mkSt w2 [GetInfo a])); try assumption; try reflexivity.
    unfold findSuccessor, bind. rewrite lookup_stop_in_interval; [reflexivity|].
    unfold in_successor_interval.
    apply inInterval_degenerate_num; [reflexivity|].
    change (ringSize (node_of_info (info A0))) with (Z.shiftl 1 m).
    change (node_m (node_of_info (info A0))) with m.
    exact Hrb. }
  rewrite E3. clear E3. set (w3 := <[b := B1]> w2).
  assert (Ha3 : w3 !! a = Some A0).
  { unfold w3. rewrite lookup_insert_ne by exact Hba. exact Ha2. }
  (* stabilize on b *)
  set (A1 := set_predecessor (Some (mkEntry (Big eb) b)) A0).
  assert (E4 : exec (stabilize b) (mkSt w3 [GetInfo a])
               = mkSt (<[a := A1]> (<[b := B1]> w3))
                      [PostNotify a (toString eb) b; GetInfo a; GetInfo a]).
  { apply exec_eq with (r := Ok tt).
    assert (Hc : stabilize_choice B1
                   (option_map stringifyBigInt (predecessor A0)) = sa).
    { unfold stabilize_choice. cbn [option_map predecessor A0 solo_node
        set_fingerTable set_successor set_predecessor].
      destruct (inInterval _ _ _ _); reflexivity. }
    rewrite (stabilize_run b _ B1 A0 A0).
    - rewrite Hc. cbn [url sa]. f_equal. f_equal.
      unfold notify_handler, notify.
      change (predecessor A0)
        with (Some (mkEntry (Big ea) a)).
      change (node_m A0) with m. change (node_id A0) with ea.
      change (ringSize A0) with (Z.shiftl 1 m). cbn [url].
      fold ea eb.
      rewrite (inInterval_degenerate_num eb ea (Big ea)) by (auto; reflexivity).
      reflexivity.
    - apply lookup_insert_eq.
    - reflexivity.
    - exact Ha3.
    - rewrite Hc. cbn [url sa world].
      rewrite lookup_insert_ne by exact Hba. exact Ha3. }
  rewrite E4. clear E4. set (w4 := <[a := A1]> (<[b := B1]> w3)).
  (* stabilize on a *)
  set (sb := mkEntry (Dec eb) b).
  set (A2 := set_successor sb A1).
  set (B2 := set_predecessor (Some (mkEntry (Big ea) a)) B1).
  assert (E5 : exec (stabilize a)
                 (mkSt w4 [PostNotify a (toString eb) b; GetInfo a; GetInfo a])
               = mkSt (<[b := B2]> (<[a := A2]> w4))
                      [PostNotify b (toString ea) a; GetInfo a;
                       PostNotify a (toString eb) b; GetInfo a; GetInfo a]).
  { apply exec_eq with (r := Ok tt).
    assert (Hc : stabilize_choice A1
                   (option_map stringifyBigInt (predecessor A1)) = sb).
    { unfold stabilize_choice.
      change (option_map stringifyBigInt (predecessor A1)) with (Some sb).
      cbv iota beta. change (id sb) with (Dec eb).
      change (node_id A1) with ea.
      change (id (successor A1)) with (Big ea).
      change (ringSize A1) with (Z.shiftl 1 m).
      rewrite inInterval_degenerate_dec by exact Hrb. reflexivity. }
    rewrite (stabilize_run a _ A1 A1 B1).
    - rewrite Hc. reflexivity.
    - apply lookup_insert_eq.
    - apply andb_false_r.
    - apply lookup_insert_eq.
    - rewrite Hc. cbn [url sb world].
      rewrite lookup_insert_ne by exact Hab.
      unfold w4. rewrite lookup_insert_ne by exact Hab.
      apply lookup_insert_eq. }
  rewrite E5. clear E5.
  exists A2, B2. cbn [world log].
  split; [rewrite lookup_insert_ne by exact Hba; apply lookup_insert_eq|].
  split; [apply lookup_insert_eq|].
  repeat split; reflexivity.
Qed.

Lemma two_nodes_point_at_each_other_witness :
  let m := 5 in
  let a := localhost 3000 in
  let b := localhost 3002 in
  let s := two_nodes m a b 0 in
  (0 <= m /\ a <> b)
  /\ exists A B,
       world s !! a = Some A /\ world s !! b = Some B
       /\ successor A = mkEntry (Dec (hashToID b m)) b
       /\ predecessor A = Some (mkEntry (Big (hashToID b m)) b)
       /\ successor B = mkEntry (Dec (hashToID a m)) a
       /\ predecessor B = Some (mkEntry (Big (hashToID a m)) a)
       /\ log s = [PostNotify b (toString (hashToID a m)) a; GetInfo a;
                   PostNotify a (toString (hashToID b m)) b; GetInfo a;
                   GetInfo a].
Proof.
  intros m a b s.
  assert (H1 : 0 <= m) by (vm_compute; discriminate).
  assert (H2 : a <> b) by (vm_compute; discriminate).
  split; [split; assumption|].
  exact (two_nodes_point_at_each_other m a b 0 H1 H2).
Defined.

(** ** The key-value store *)

Section StoreBlind.

Lemma scan_fingers_view kv n key i :
  scan_fingers (set_kvStore kv n) key i = scan_fingers n key i.
Proof.
  induction i as [|i IH]; [reflexivity|].
  cbn [scan_fingers]. rewrite IH. reflexivity.
Qed.

Lemma closestPrecedingNode_view n n' key :
  same_ring_view n n' ->
  closestPrecedingNode n key = closestPrecedingNode n' key.
Proof.
  unfold same_ring_view. intros H.
  transitivity (closestPrecedingNode (set_kvStore ∅ n) key).
  - unfold closestPrecedingNode. rewrite scan_fingers_view. reflexivity.
  - rewrite H. unfold closestPrecedingNode. rewrite scan_fingers_view.
    reflexivity.
Qed.

Lemma in_successor_interval_view n n' key :
  same_ring_view n n' ->
  in_successor_interval key n = in_successor_interval key n'.
Proof.
  unfold same_ring_view. intros H.
  change (in_successor_interval key (set_kvStore ∅ n)
          = in_successor_interval key (set_kvStore ∅ n')).
  rewrite H. reflexivity.
Qed.

Lemma same_ring_view_fields n n' :
  same_ring_view n n' ->
  node_id n = node_id n' /\ node_url n = node_url n' /\ node_m n = node_m n'
  /\ successor n = successor n'.
Proof.
  unfold same_ring_view. intros H.
  repeat split;
    [apply (f_equal node_id) in H | apply (f_equal node_url) in H
     | apply (f_equal node_m) in H | apply (f_equal successor) in H];
    exact H.
Qed.

Lemma same_ring_view_store kv n : same_ring_view n (set_kvStore kv n).
Proof. reflexivity. Qed.

Lemma same_published_store w a n kv :
  w !! a = Some n -> same_published w (<[a := set_kvStore kv n]> w).
Proof.
  intros H u. destruct (decide (u = a)) as [->|Hne].
  - rewrite lookup_insert_eq, H. reflexivity.
  - rewrite lookup_insert_ne by congruence. reflexivity.
Qed.


Lemma same_published_trans w1 w2 w3 :
  same_published w1 w2 -> same_published w2 w3 -> same_published w1 w3.
Proof. intros H1 H2 u. rewrite (H1 u). apply H2. Qed.

(** The loop reads ring pointers only: started on node objects that
    differ in their stores, among processes that publish the same states,
    it sends the same requests and ends the same way. *)
Lemma lookup_store_blind fuel key :
  forall current current' w w' l l2,
    same_ring_view current current' ->
    same_published w w' ->
    exists r r' t,
      lookup fuel key current (mkSt w l) = (r, mkSt w (t ++ l)%list)
      /\ lookup fuel key current' (mkSt w' l2) = (r', mkSt w' (t ++ l2)%list)
      /\ match r, r' with
         | Ok n, Ok n' => same_ring_view n n'
         | Err e, Err e' => e = e'
         | Pending, Pending => True
         | _, _ => False
         end.
Proof.
  induction fuel as [|fuel IH]; intros current current' w w' l l2 Hv Hp.
  - pose proof (in_successor_interval_view _ _ key Hv) as Hi.
    pose proof (closestPrecedingNode_view _ _ key Hv) as Hc.
    destruct (same_ring_view_fields _ _ Hv) as (Hid & _).
    destruct (in_successor_interval key current) eqn:I.
    + exists (Ok current), (Ok current'), [].
      rewrite !lookup_stop_in_interval by congruence. auto.
    + destruct (equals_current (closestPrecedingNode current key) current) eqn:Q.
      * exists (Ok current), (Ok current'), [].
        rewrite !lookup_stop_no_progress; auto; try congruence.
        unfold equals_current in *. rewrite <- Hc, <- Hid. exact Q.
      * exists Pending, Pending, [].
        rewrite !lookup_out_of_fuel; auto; try congruence.
        unfold equals_current in *. rewrite <- Hc, <- Hid. exact Q.
  - pose proof (in_successor_interval_view _ _ key Hv) as Hi.
    pose proof (closestPrecedingNode_view _ _ key Hv) as Hc.
    destruct (same_ring_view_fields _ _ Hv) as (Hid & _).
    destruct (in_successor_interval key current) eqn:I.
    + exists (Ok current), (Ok current'), [].
      rewrite !lookup_stop_in_interval by congruence. auto.
    + destruct (equals_current (closestPrecedingNode current key) current) eqn:Q.
      * exists (Ok current), (Ok current'), [].
        rewrite !lookup_stop_no_progress; auto; try congruence.
        unfold equals_current in *. rewrite <- Hc, <- Hid. exact Q.
      * assert (Q' : equals_current (closestPrecedingNode current' key) current'
                     = false).
        { unfold equals_current in *. rewrite <- Hc, <- Hid. exact Q. }
        rewrite (lookup_hop_eq fuel key current _ I Q).
        rewrite (lookup_hop_eq fuel key current' _ ltac:(congruence) Q').
        rewrite <- Hc. set (u := url (closestPrecedingNode current key)).
        unfold bind. pose proof (Hp u) as Hu.
        destruct (w !! u) as [p|] eqn:Wu; destruct (w' !! u) as [p'|] eqn:Wu';
          simpl in Hu; try discriminate.
        -- rewrite (fetchNodeInfo_ok u (mkSt w l) p) by exact Wu.
           rewrite (fetchNodeInfo_ok u (mkSt w' l2) p') by exact Wu'.
           assert (Hinfo : info p = info p') by congruence.
           rewrite <- Hinfo. cbn [world log].
           destruct (IH (node_of_info (info p)) (node_of_info (info p))
                        w w' (GetInfo u :: l) (GetInfo u :: l2)
                        eq_refl Hp)
             as (r & r' & t & E1 & E2 & R).
           exists r, r', (t ++ [GetInfo u])%list.
           rewrite <- !app_assoc. cbn [app]. auto.
        -- rewrite (fetchNodeInfo_failed u (mkSt w l)) by exact Wu.
           rewrite (fetchNodeInfo_failed u (mkSt w' l2)) by exact Wu'.
           exists (Err (RequestFailed (GetInfo u))),
                  (Err (RequestFailed (GetInfo u))), [GetInfo u].
           auto.
Qed.

Lemma findSuccessor_store_blind fuel this this' keyStr w w' l l2 :
  same_ring_view this this' ->
  same_published w w' ->
  exists r t,
    findSuccessor fuel this keyStr (mkSt w l) = (r, mkSt w (t ++ l)%list)
    /\ findSuccessor fuel this' keyStr (mkSt w' l2)
       = (r, mkSt w' (t ++ l2)%list).
Proof.
  intros Hv Hp.
  destruct (same_ring_view_fields _ _ Hv) as (_ & _ & Hm & _).
  unfold findSuccessor, bind. rewrite <- Hm.
  destruct (lookup_store_blind fuel (hashToID keyStr (node_m this))
              this this' w w' l l2 Hv Hp) as (r & r' & t & E1 & E2 & R).
  rewrite E1, E2.
  destruct r as [n|e|], r' as [n'|e'|]; try contradiction.
  - destruct (same_ring_view_fields _ _ R) as (_ & _ & _ & Hs).
    exists (Ok (successor n)), t. rewrite Hs. auto.
  - subst e'. exists (Err e), t. auto.
  - exists Pending, t. auto.
Qed.

End StoreBlind.

(** X13.  A lookup does not depend on what is stored: started at a node
    object that differs only in its key-value store, among processes whose
    [/info] replies are the same, [findSuccessor] sends the same requests
    and settles the same way. *)
Theorem findSuccessor_ignores_stores
  (fuel : nat) (this this' : Node) (keyStr : string)
  (w w' : gmap string Node) (l : list Request) :
  same_ring_view this this' ->
  same_published w w' ->
  fst (findSuccessor fuel this' keyStr (mkSt w' l))
  = fst (findSuccessor fuel this keyStr (mkSt w l))
  /\ log (snd (findSuccessor fuel this' keyStr (mkSt w' l)))
     = log (snd (findSuccessor fuel this keyStr (mkSt w l))).
Proof.
  intros Hv Hp.
  destruct (findSuccessor_store_blind fuel this this' keyStr w w' l l Hv Hp)
    as (r & t & E1 & E2).
  rewrite E1, E2. split; reflexivity.
Qed.

Lemma findSuccessor_ignores_stores_witness :
  let w := world (two_node_ring 5 3000 3002) in
  let this := node_at 3000 (two_node_ring 5 3000 3002) in
  let this' := set_kvStore (<[7 := mkKV "k" "v"]> ∅) this in
  let w' := <[localhost 3000 := this']> w in
  (same_ring_view this this' /\ same_published w w')
  /\ fst (findSuccessor 3 this' "k" (mkSt w' []))
     = fst (findSuccessor 3 this "k" (mkSt w []))
  /\ log (snd (findSuccessor 3 this' "k" (mkSt w' [])))
     = log (snd (findSuccessor 3 this "k" (mkSt w []))).
Proof.
  intros w this this' w'.
  assert (H1 : same_ring_view this this') by apply same_ring_view_store.
  assert (H2 : same_published w w').
  { apply same_published_store. vm_compute. reflexivity. }
  split; [split; assumption|].
  exact (findSuccessor_ignores_stores 3 this this' "k" w w' [] H1 H2).
Defined.

Section StoreSteps.

Lemma St_eta s : s = mkSt (world s) (log s).
Proof. destruct s. reflexivity. Qed.

Lemma get_local hops fuel me key s node owner s1 :
  world s !! me = Some node ->
  findSuccessor fuel node key s = (Ok owner, s1) ->
  url owner = node_url node ->
  world s1 = world s ->
  get hops fuel me key s
  = (Ok (match kvStore node !! hashToID key (node_m node) with
         | Some entry => mkGetResponse 200 (Found (originalKey entry) (value entry))
         | None => mkGetResponse 200 (NotFound key)
         end), s1).
Proof.
  intros Hme Hfind Hsame Hw.
  assert (Heqb : String.eqb (url owner) (node_url node) = true)
    by (apply String.eqb_eq; exact Hsame).
  destruct hops; cbn [get]; unfold get_handler;
    unfold bind at 1; rewrite (get_node_ok _ _ _ Hme);
    unfold bind at 1; rewrite Hfind, Heqb;
    unfold bind at 1;
    (rewrite (get_node_ok me s1 node) by (rewrite Hw; exact Hme));
    destruct (kvStore node !! _); reflexivity.
Qed.

End StoreSteps.

(** X14.  What a node stores it gives back: when the lookup of a key ends
    on the node itself, a put with a positive ttl answers that the pair is
    stored there, and a get of the same key at the same node, in the state
    the put leaves, answers with that key and that value. *)
Theorem put_then_get_round_trip
  (hops hops' fuel : nat) (me key value : string) (ttl : Z)
  (node : Node) (owner : NodeEntry) (s s0 : St) :
  0 < ttl ->
  world s !! me = Some node ->
  findSuccessor fuel node key s = (Ok owner, s0) ->
  url owner = node_url node ->
  exists s1 s2,
    put hops fuel me key value (Some ttl) s
    = (Ok (mkResponse 200 (KeyStored (node_url node) key value)), s1)
    /\ get hops' fuel me key s1
       = (Ok (mkGetResponse 200 (Found key value)), s2)
    /\ world s2 = world s1.
Proof.
  intros Httl Hme Hfind Hsame.
  pose proof (put_stores_locally hops fuel me key value ttl s node owner s0
                Httl Hme Hfind Hsame) as Hput.
  set (node' := set_kvStore (<[hashToID key (node_m node) := mkKV key value]>
                               (kvStore node)) node) in *.
  set (w' := <[me := node']> (world s)) in *.
  destruct (findSuccessor_store_blind fuel node node' key (world s) w'
              (log s) (log s0) (same_ring_view_store _ node)
              (same_published_store _ _ _ _ Hme))
    as (r & t & E1 & E2).
  rewrite <- St_eta in E1. rewrite Hfind in E1. injection E1 as <- _.
  eexists _, _. split; [exact Hput|].
  split.
  - rewrite (get_local hops' fuel me key _ node' owner _
               (lookup_insert_eq _ _ _) E2 Hsame eq_refl).
    unfold node' at 1 2. cbn [kvStore set_kvStore node_m].
    rewrite lookup_insert_eq. reflexivity.
  - reflexivity.
Qed.

Lemma put_then_get_round_trip_witness :
  let s := start 5 3000 (mkSt ∅ []) in
  let me := localhost 3000 in
  let node := node_at 3000 s in
  (0 < 10
   /\ world s !! me = Some node
   /\ findSuccessor 0 node "apple" s = (Ok (self_entry node), s)
   /\ url (self_entry node) = node_url node)
  /\ exists s1 s2,
       put 0 0 me "apple" "red" (Some 10) s
       = (Ok (mkResponse 200 (KeyStored (node_url node) "apple" "red")), s1)
       /\ get 0 0 me "apple" s1
          = (Ok (mkGetResponse 200 (Found "apple" "red")), s2)
       /\ world s2 = world s1.
Proof.
  intros s me node.
  assert (H1 : 0 < 10) by lia.
  assert (H2 : world s !! me = Some node) by (vm_compute; reflexivity).
  assert (H3 : findSuccessor 0 node "apple" s = (Ok (self_entry node), s))
    by (vm_compute; reflexivity).
  assert (H4 : url (self_entry node) = node_url node) by reflexivity.
  split; [repeat (split; [assumption|]); assumption|].
  exact (put_then_get_round_trip 0 0 0 me "apple" "red" 10 node
           (self_entry node) s s H1 H2 H3 H4).
Defined.

Lemma get_world (hops fuel : nat) (me key : string) (s : St) :
  world (snd (get hops fuel me key s)) = world s.
Proof.
  revert me s. induction hops as [|hops IH]; intros me s.
  - cbn [get]. unfold get_handler. unfold bind at 1.
    unfold get_node. destruct (world s !! me) as [node|] eqn:Hme;
      [|reflexivity].
    unfold bind at 1.
    destruct (findSuccessor fuel node key s) as [[owner|e|] s1] eqn:F;
      pose proof (findSuccessor_world _ _ _ _ _ _ F) as Hw;
      try exact Hw.
    destruct (String.eqb _ _).
    + unfold bind. rewrite Hw, Hme.
      destruct (kvStore node !! _); exact Hw.
    + unfold bind. destruct (world s1 !! url owner); exact Hw.
  - cbn [get]. unfold get_handler. unfold bind at 1.
    unfold get_node. destruct (world s !! me) as [node|] eqn:Hme;
      [|reflexivity].
    unfold bind at 1.
    destruct (findSuccessor fuel node key s) as [[owner|e|] s1] eqn:F;
      pose proof (findSuccessor_world _ _ _ _ _ _ F) as Hw;
      try exact Hw.
    destruct (String.eqb _ _).
    + unfold bind. rewrite Hw, Hme.
      destruct (kvStore node !! _); exact Hw.
    + unfold bind. destruct (world s1 !! url owner); [|exact Hw].
      specialize (IH (url owner) s1).
      destruct (get hops fuel (url owner) key s1) as [r s2].
      cbn [snd] in IH.
      destruct (axios_settle_get r) as [[d|[]]|e|]; unfold ret; cbn [snd];
        congruence.
Qed.


Section PutLog.



End PutLog.



Section Keys.

Lemma toString_inj x y : toString x = toString y -> x = y.
Proof.
  unfold toString. intros H.
  assert (N : forall z, NilZero.int_of_string
                          (NilZero.string_of_int (Z.to_int z))
                        = Some (Z.to_int z)).
  { intros z. apply NilZero.isi; destruct z; simpl; try discriminate;
      intros E; injection E as E; exact (Unsigned.to_uint_nonnil _ E). }
  apply DecimalZ.to_int_inj.
  pose proof (N x) as Hx. rewrite H, N in Hx. congruence.
Qed.

Lemma keys_fold (l : list (Z * KVEntry)) :
  forall (acc : gmap string KVEntry) k,
    NoDup l.*1 ->
    foldl (fun acc kv => <[toString (fst kv) := snd kv]> acc) acc l
      !! toString k
    = match (list_to_map l : gmap Z KVEntry) !! k with
      | Some v => Some v
      | None => acc !! toString k
      end.
Proof.
  induction l as [|[k0 v0] l IH]; intros acc k Hnd.
  - reflexivity.
  - rewrite fmap_cons, NoDup_cons in Hnd. destruct Hnd as [Hk0 Hnd].
    cbn [foldl fst snd] in *. rewrite (IH _ _ Hnd). cbn [list_to_map foldr fst snd].
    assert (Hnone : (list_to_map l : gmap Z KVEntry) !! k0 = None)
      by (apply not_elem_of_list_to_map; exact Hk0).
    destruct (decide (k = k0)) as [->|Hne].
    + rewrite Hnone.
      rewrite (lookup_insert_eq (list_to_map l : gmap Z KVEntry) k0 v0).
      apply lookup_insert_eq.
    + rewrite (lookup_insert_ne (list_to_map l : gmap Z KVEntry) k0 k v0)
        by congruence.
      destruct ((list_to_map l : gmap Z KVEntry) !! k); [reflexivity|].
      apply lookup_insert_ne. intros E. apply toString_inj in E. congruence.
Qed.

Lemma keys_fold_dom (l : list (Z * KVEntry)) :
  forall (acc : gmap string KVEntry) str v,
    foldl (fun acc kv => <[toString (fst kv) := snd kv]> acc) acc l !! str
    = Some v ->
    acc !! str = Some v \/ exists k, str = toString k /\ In k l.*1.
Proof.
  induction l as [|[k0 v0] l IH]; intros acc str v H.
  - left. exact H.
  - cbn [foldl fst snd] in H. destruct (IH _ _ _ H) as [H1|(k & -> & Hin)].
    + destruct (decide (str = toString k0)) as [->|Hne].
      * right. exists k0. split; [reflexivity|]. left. reflexivity.
      * rewrite lookup_insert_ne in H1 by congruence. left. exact H1.
    + right. exists k. split; [reflexivity|]. right. exact Hin.
Qed.

End Keys.

(** X18.  [/keys] lists the store: under the decimal string of an
    identifier the object holds exactly what the store holds under that
    identifier, and the object has no other key. *)
Theorem keys_lists_the_store (node : Node) :
  (forall k, keys_handler node !! toString k = kvStore node !! k)
  /\ (forall str v, keys_handler node !! str = Some v ->
        exists k, str = toString k /\ kvStore node !! k = Some v).
Proof.
  assert (H : forall k, keys_handler node !! toString k = kvStore node !! k).
  { intros k. unfold keys_handler.
    rewrite keys_fold by apply NoDup_fst_map_to_list.
    rewrite list_to_map_to_list.
    destruct (kvStore node !! k); [reflexivity|]. apply lookup_empty. }
  split; [exact H|].
  intros str v Hs. unfold keys_handler in Hs.
  destruct (keys_fold_dom _ _ _ _ Hs) as [E|(k & -> & _)].
  - rewrite lookup_empty in E. discriminate.
  - exists k. split; [reflexivity|]. rewrite <- H. exact Hs.
Qed.

(** ** What holds after every history *)

Section Keeps.

Variable I : St -> Prop.

Lemma keeps_ret {A} (a : A) (Q : A -> Prop) : Q a -> keeps I (ret a) Q.
Proof.
  intros Ha s r s' Hs E. unfold ret in E. inversion E; subst.
  split; [exact Hs|]. intros b Hb. inversion Hb; subst. exact Ha.
Qed.

Lemma keeps_bind {A B} (c : M A) (k : A -> M B) (Q : A -> Prop)
  (R : B -> Prop) :
  keeps I c Q -> (forall a, Q a -> keeps I (k a) R) -> keeps I (bind c k) R.
Proof.
  intros Hc Hk s r s' Hs E. unfold bind in E.
  destruct (c s) as [[a|e|] s1] eqn:C;
    destruct (Hc _ _ _ Hs C) as [H1 HQ].
  - exact (Hk a (HQ a eq_refl) _ _ _ H1 E).
  - inversion E; subst. split; [exact H1|]. intros b Hb. discriminate.
  - inversion E; subst. split; [exact H1|]. intros b Hb. discriminate.
Qed.

Lemma keeps_weaken {A} (c : M A) (Q Q' : A -> Prop) :
  keeps I c Q -> (forall a, Q a -> Q' a) -> keeps I c Q'.
Proof.
  intros Hc HQ s r s' Hs E. destruct (Hc _ _ _ Hs E) as [H1 H2].
  split; [exact H1|]. intros a Ha. apply HQ, H2, Ha.
Qed.

End Keeps.

Section EarlyReturn.

Lemma returns_early_dec_successor e n z :
  id e = Dec z -> returns_early (set_successor e n) = false.
Proof. intros H. unfold returns_early. simpl. rewrite H. reflexivity. Qed.

Lemma returns_early_some_predecessor p n :
  returns_early (set_predecessor (Some p) n) = false.
Proof. unfold returns_early. simpl. apply andb_false_r. Qed.

Lemma returns_early_notify n c :
  returns_early n = false -> returns_early (notify n c) = false.
Proof.
  intros H. unfold notify. destruct (predecessor n);
    [destruct (inInterval _ _ _ _)|]; auto using returns_early_some_predecessor.
Qed.

Lemma no_early_return_insert s u n l :
  no_early_return s -> returns_early n = false ->
  no_early_return (mkSt (<[u := n]> (world s)) l).
Proof.
  intros Hs Hn v k. cbn [world]. destruct (decide (v = u)) as [->|Hne].
  - rewrite lookup_insert_eq. intros E. inversion E; subst. exact Hn.
  - rewrite lookup_insert_ne by congruence. apply Hs.
Qed.

Lemma no_early_return_world s s' :
  world s' = world s -> no_early_return s -> no_early_return s'.
Proof. intros E H u n. rewrite E. apply H. Qed.

Lemma keeps_get_node me :
  keeps no_early_return (get_node me) (fun n => returns_early n = false).
Proof.
  intros s r s' Hs E. unfold get_node in E.
  destruct (world s !! me) as [n|] eqn:W; inversion E; subst.
  - split; [exact Hs|]. intros a Ha. inversion Ha; subst. exact (Hs _ _ W).
  - split; [exact Hs|]. intros a Ha. discriminate.
Qed.

Lemma keeps_modify_node me f :
  (forall n, returns_early n = false -> returns_early (f n) = false) ->
  keeps no_early_return (modify_node me f) (fun _ => True).
Proof.
  intros Hf s r s' Hs E. unfold modify_node in E.
  destruct (world s !! me) as [n|] eqn:W; inversion E; subst.
  - split; [|auto]. apply no_early_return_insert; [exact Hs|].
    apply Hf. exact (Hs _ _ W).
  - split; [exact Hs|]. intros a Ha. discriminate.
Qed.

Lemma keeps_fetchNodeInfo u : keeps no_early_return (fetchNodeInfo u) is_snapshot.
Proof.
  intros s r s' Hs E.
  destruct (fetchNodeInfo_cases u s) as [(peer & _ & F)|[_ F]];
    rewrite F in E; inversion E; subst.
  - split; [exact Hs|]. intros a Ha. inversion Ha; subst. exists peer.
    reflexivity.
  - split; [exact Hs|]. intros a Ha. discriminate.
Qed.

Lemma keeps_lookup fuel key current :
  keeps no_early_return (lookup fuel key current)
           (fun last => last = current \/ is_snapshot last).
Proof.
  intros s r s' Hs E.
  pose proof (lookup_trace fuel key current s) as T. cbv zeta in T.
  rewrite E in T. cbn [fst snd] in T. destruct T as (Hw & _ & Hlast).
  split; [exact (no_early_return_world _ _ Hw Hs)|].
  intros a ->. destruct (Hlast a eq_refl) as [->|(u & peer & _ & ->)].
  - left. reflexivity.
  - right. exists peer. reflexivity.
Qed.

Lemma snapshot_successor_dec n :
  is_snapshot n -> exists z, id (successor n) = Dec z.
Proof. intros [peer ->]. simpl. eauto. Qed.

Lemma snapshot_predecessor_dec n x :
  is_snapshot n -> predecessor n = Some x -> exists z, id x = Dec z.
Proof.
  intros [peer ->]. simpl. destruct (predecessor peer); simpl; intros E;
    inversion E; subst. simpl. eauto.
Qed.

Lemma keeps_findSuccessor_any fuel this keyStr :
  keeps no_early_return (findSuccessor fuel this keyStr) (fun _ => True).
Proof.
  unfold findSuccessor. eapply keeps_bind; [apply keeps_lookup|].
  intros a _. apply keeps_ret. exact Logic.I.
Qed.

Lemma keeps_findSuccessor_snapshot fuel this keyStr :
  is_snapshot this ->
  keeps no_early_return (findSuccessor fuel this keyStr) (fun e => exists z, id e = Dec z).
Proof.
  intros Hsnap. unfold findSuccessor.
  eapply keeps_bind; [apply keeps_lookup|].
  intros a Ha. apply keeps_ret. apply snapshot_successor_dec.
  destruct Ha as [->|Ha]; assumption.
Qed.

Lemma keeps_join fuel me existingNodeUrl :
  keeps no_early_return (join fuel me existingNodeUrl) (fun _ => True).
Proof.
  unfold join. eapply keeps_bind; [apply keeps_get_node|].
  intros this _. eapply keeps_bind with (Q := fun _ => True).
  - destruct existingNodeUrl as [existing|].
    + eapply keeps_bind; [apply keeps_fetchNodeInfo|].
      intros peer Hpeer.
      eapply keeps_bind; [apply keeps_findSuccessor_snapshot, Hpeer|].
      intros succ [z Hz].
      (* the successor is written right after the predecessor: the two
         assignments are one step *)
      intros s r s' Hs E. unfold bind, modify_node in E.
      destruct (world s !! me) as [n|] eqn:W.
      * cbn [world] in E. rewrite lookup_insert_eq in E.
        inversion E; subst. split; [|auto].
        rewrite insert_insert_eq.
        apply no_early_return_insert; [exact Hs|].
        apply returns_early_dec_successor with (z := z). exact Hz.
      * inversion E; subst. split; [exact Hs|]. intros a Ha. discriminate.
    + intros s r s' Hs E. unfold bind, modify_node in E.
      destruct (world s !! me) as [n|] eqn:W.
      * cbn [world] in E. rewrite lookup_insert_eq in E.
        inversion E; subst. split; [|auto].
        rewrite insert_insert_eq.
        apply no_early_return_insert; [exact Hs|].
        unfold returns_early. simpl. apply andb_false_r.
      * inversion E; subst. split; [exact Hs|]. intros a Ha. discriminate.
  - intros _ _. apply keeps_modify_node. intros n Hn. exact Hn.
Qed.


Lemma keeps_post_notify to body_id body_url :
  keeps no_early_return (post_notify to body_id body_url) (fun _ => True).
Proof.
  intros s r s' Hs E. unfold post_notify, bind, send in E. cbn [world log] in E.
  destruct (world s !! to) as [peer|] eqn:W; inversion E; subst.
  - split; [|auto]. apply no_early_return_insert; [exact Hs|].
    apply returns_early_notify. exact (Hs _ _ W).
  - split; [|intros a Ha; discriminate].
    intros u n. apply Hs.
Qed.

Lemma keeps_stabilize me :
  keeps no_early_return (stabilize me) (fun _ => True).
Proof.
  unfold stabilize. eapply keeps_bind; [apply keeps_get_node|].
  intros this _. destruct (_ && _); [apply keeps_ret; exact Logic.I|].
  eapply keeps_bind; [apply keeps_fetchNodeInfo|].
  intros successorNode Hsnap.
  eapply keeps_bind with (Q := fun _ => True).
  - destruct (predecessor successorNode) as [x'|] eqn:X;
      [|apply keeps_ret; exact Logic.I].
    destruct (inInterval _ _ _ _); [|apply keeps_ret; exact Logic.I].
    destruct (snapshot_predecessor_dec _ _ Hsnap X) as [z Hz].
    apply keeps_modify_node. intros n _.
    apply returns_early_dec_successor with (z := z). exact Hz.
  - intros _ _. eapply keeps_bind; [apply keeps_get_node|].
    intros this' _. apply keeps_post_notify.
Qed.

Lemma keeps_fixFingers fuel me random :
  keeps no_early_return (fixFingers fuel me random) (fun _ => True).
Proof.
  unfold fixFingers. eapply keeps_bind; [apply keeps_get_node|].
  intros this _. eapply keeps_bind with (Q := fun _ => True).
  - unfold js_rem. destruct (_ =? _).
    + intros s r s' Hs E. unfold throw in E. inversion E; subst.
      split; [exact Hs|]. intros a Ha. discriminate.
    + apply keeps_ret. exact Logic.I.
  - intros start _.
    eapply keeps_bind; [apply keeps_findSuccessor_any|].
    intros successor _. apply keeps_modify_node. intros n Hn. exact Hn.
Qed.

Lemma keeps_tick fuel me random :
  keeps no_early_return (tick fuel me random) (fun _ => True).
Proof.
  unfold tick. eapply keeps_bind; [apply keeps_stabilize|].
  intros _ _. eapply keeps_bind; [apply keeps_fixFingers|].
  intros _ _. apply keeps_ret. exact Logic.I.
Qed.

Lemma keeps_put hops fuel key value :
  forall me ttl_,
    keeps no_early_return (put hops fuel me key value ttl_) (fun _ => True).
Proof.
  induction hops as [|hops IH]; intros me ttl_.
  - cbn [put]. destruct (_ <=? 0); [apply keeps_ret; exact Logic.I|].
    eapply keeps_bind; [apply keeps_get_node|]. intros node _.
    eapply keeps_bind; [apply keeps_findSuccessor_any|]. intros successor _.
    destruct (String.eqb _ _).
    + eapply keeps_bind;
        [apply keeps_modify_node; intros n Hn; exact Hn|].
      intros _ _. apply keeps_ret. exact Logic.I.
    + eapply keeps_bind with (Q := fun _ => True).
      { intros s r s' Hs E. unfold send in E. inversion E; subst.
        split; [|auto]. intros u n. apply Hs. }
      intros _ _. eapply keeps_bind with (Q := fun _ => True).
      { intros s r s' Hs E. destruct (world s !! url successor);
          inversion E; subst; split; auto. }
      intros [data|error] _; apply keeps_ret; exact Logic.I.
  - cbn [put]. destruct (_ <=? 0); [apply keeps_ret; exact Logic.I|].
    eapply keeps_bind; [apply keeps_get_node|]. intros node _.
    eapply keeps_bind; [apply keeps_findSuccessor_any|]. intros successor _.
    destruct (String.eqb _ _).
    + eapply keeps_bind;
        [apply keeps_modify_node; intros n Hn; exact Hn|].
      intros _ _. apply keeps_ret. exact Logic.I.
    + eapply keeps_bind with (Q := fun _ => True).
      { intros s r s' Hs E. unfold send in E. inversion E; subst.
        split; [|auto]. intros u n. apply Hs. }
      intros _ _. eapply keeps_bind with (Q := fun _ => True).
      { intros s r s' Hs E. destruct (world s !! url successor).
        - destruct (put hops fuel (url successor) key value _ s)
            as [r1 s1] eqn:P.
          inversion E; subst.
          destruct (IH _ _ _ _ _ Hs P) as [H1 _]. split; auto.
        - inversion E; subst. split; auto. }
      intros [data|error] _; apply keeps_ret; exact Logic.I.
Qed.

Lemma no_early_return_run_op o s :
  no_early_return s -> no_early_return (run_op o s).
Proof.
  intros Hs.
  assert (K : forall A (c : M A), keeps no_early_return c (fun _ => True) ->
                no_early_return (exec c s)).
  { intros A c Hc. unfold exec. destruct (c s) as [r s'] eqn:E.
    exact (proj1 (Hc _ _ _ Hs E)). }
  destruct o; cbn [run_op].
  - unfold start.
    unfold exec.
    rewrite (join_none_run 0 (localhost port)
               (new_Node (localhost port) m 1000))
      by (cbn [world]; apply lookup_insert_eq).
    cbn [snd world]. rewrite insert_insert_eq.
    apply no_early_return_insert; [exact Hs|].
    unfold returns_early. simpl. apply andb_false_r.
  - intros u n. unfold kill. cbn [world]. intros E.
    apply lookup_delete_Some in E. destruct E as [_ E]. exact (Hs _ _ E).
  - apply K, keeps_join.
  - apply K, keeps_stabilize.
  - apply K, keeps_fixFingers.
  - apply K, keeps_tick.
  - apply K, keeps_post_notify.
  - apply K, keeps_put.
  - unfold exec. intros u n. rewrite get_world. apply Hs.
Qed.

Lemma no_early_return_run ops : no_early_return (run ops).
Proof.
  unfold run.
  assert (G : forall s, no_early_return s ->
                no_early_return (fold_left (fun s o => run_op o s) ops s)).
  { induction ops as [|o ops IH]; intros s Hs; [exact Hs|].
    cbn [fold_left]. apply IH, no_early_return_run_op, Hs. }
  apply G. intros u n E. cbn [world] in E. rewrite lookup_empty in E.
  discriminate.
Qed.

End EarlyReturn.

(** X19.  The early return of [stabilize] is never taken.  After any
    history (processes started with the constructor and [join(null)],
    killed, joining, stabilizing, fixing fingers, being notified, putting
    and getting, in any order and with any outcome) every process has a
    predecessor or a successor whose identifier is a string, so the test
    [this.successor.id === this.id && this.predecessor === null] is false:
    each run of [stabilize] sends the fetch of the successor's state. *)
Theorem stabilize_never_returns_early
  (ops : list Op) (me : string) (this : Node) :
  world (run ops) !! me = Some this ->
  returns_early this = false
  /\ exists l,
       log (snd (stabilize me (run ops)))
       = (l ++ GetInfo (url (successor this)) :: log (run ops))%list.
Proof.
  intros Hme.
  pose proof (no_early_return_run ops _ _ Hme) as Hno.
  split; [exact Hno|].
  set (s := run ops) in *.
  unfold stabilize. unfold bind at 1. rewrite (get_node_ok _ _ _ Hme).
  unfold returns_early in Hno. rewrite Hno.
  unfold bind at 1.
  destruct (fetchNodeInfo_cases (url (successor this)) s)
    as [(peer & _ & F)|[_ F]]; rewrite F.
  - set (s1 := mkSt (world s) (GetInfo (url (successor this)) :: log s)).
    assert (G : forall (c : M unit),
               (forall t, log (snd (c t)) = log t) ->
               (forall t, world t !! me = Some this ->
                          exists n, world (snd (c t)) !! me = Some n) ->
               (forall t, fst (c t) = Ok tt \/ snd (c t) = t) ->
               exists l,
                 log (snd (bind c (fun _ =>
                        bind (get_node me) (fun this =>
                          post_notify (url (successor this))
                            (toString (node_id this)) (node_url this))) s1))
                 = (l ++ log s1)%list).
    { intros c Hlog Hkeep Hok. unfold bind at 1.
      destruct (c s1) as [[[]|e|] s2] eqn:C;
        pose proof (Hlog s1) as L; rewrite C in L; cbn [snd] in L.
      - destruct (Hkeep s1 Hme) as [n Hn]. rewrite C in Hn. cbn [snd] in Hn.
        unfold bind at 1. rewrite (get_node_ok _ _ _ Hn).
        unfold post_notify, bind, send. cbn [world log].
        destruct (world s2 !! url (successor n)); cbn [snd log];
          rewrite L; eexists [_]; reflexivity.
      - exists []. cbn [snd]. exact L.
      - exists []. cbn [snd]. exact L. }
    destruct (predecessor (node_of_info (info peer))) as [x'|];
      [destruct (inInterval _ _ _ _)|].
    + apply G.
      * intros t. unfold modify_node. destruct (world t !! me); reflexivity.
      * intros t Ht. unfold modify_node. rewrite Ht. cbn [snd world].
        rewrite lookup_insert_eq. eauto.
      * intros t. unfold modify_node. destruct (world t !! me); auto.
    + apply G; intros t; unfold ret; cbn [fst snd]; eauto.
    + apply G; intros t; unfold ret; cbn [fst snd]; eauto.
  - exists []. reflexivity.
Qed.

Lemma stabilize_never_returns_early_witness :
  let ops := [OpStart 5 3000; OpStart 5 3002;
              OpJoin 0 (localhost 3002) (Some (localhost 3000))] in
  let me := localhost 3002 in
  let this := node_at 3002 (run ops) in
  world (run ops) !! me = Some this
  /\ returns_early this = false
  /\ exists l,
       log (snd (stabilize me (run ops)))
       = (l ++ GetInfo (url (successor this)) :: log (run ops))%list.
Proof.
  intros ops me this.
  assert (H1 : world (run ops) !! me = Some this) by (vm_compute; reflexivity).
  split; [exact H1|].
  exact (stabilize_never_returns_early ops me this H1).
Defined.

Section AllNodes.

Variable P : Node -> Prop.

Lemma all_nodes_insert s u n l :
  all_nodes P s -> P n -> all_nodes P (mkSt (<[u := n]> (world s)) l).
Proof.
  intros Hs Hn v k. cbn [world]. destruct (decide (v = u)) as [->|Hne].
  - rewrite lookup_insert_eq. intros E. inversion E; subst. exact Hn.
  - rewrite lookup_insert_ne by congruence. apply Hs.
Qed.

Lemma all_nodes_world s s' :
  world s' = world s -> all_nodes P s -> all_nodes P s'.
Proof. intros E H u n. rewrite E. apply H. Qed.

Lemma all_get_node me : keeps (all_nodes P) (get_node me) P.
Proof.
  intros s r s' Hs E. unfold get_node in E.
  destruct (world s !! me) as [n|] eqn:W; inversion E; subst.
  - split; [exact Hs|]. intros a Ha. inversion Ha; subst. exact (Hs _ _ W).
  - split; [exact Hs|]. intros a Ha. discriminate.
Qed.

Lemma all_modify_node me f :
  (forall n, P n -> P (f n)) ->
  keeps (all_nodes P) (modify_node me f) (fun _ => True).
Proof.
  intros Hf s r s' Hs E. unfold modify_node in E.
  destruct (world s !! me) as [n|] eqn:W; inversion E; subst.
  - split; [|auto]. apply all_nodes_insert; [exact Hs|].
    apply Hf. exact (Hs _ _ W).
  - split; [exact Hs|]. intros a Ha. discriminate.
Qed.

Lemma all_send q : keeps (all_nodes P) (send q) (fun _ => True).
Proof.
  intros s r s' Hs E. unfold send in E. inversion E; subst.
  split; [|auto]. intros u n. apply Hs.
Qed.

Hypothesis Hsnapshot : forall peer, P peer -> P (node_of_info (info peer)).

Lemma all_fetchNodeInfo u : keeps (all_nodes P) (fetchNodeInfo u) P.
Proof.
  intros s r s' Hs E.
  destruct (fetchNodeInfo_cases u s) as [(peer & W & F)|[_ F]];
    rewrite F in E; inversion E; subst.
  - split; [intros v n; apply Hs|]. intros a Ha. inversion Ha; subst.
    apply Hsnapshot. exact (Hs _ _ W).
  - split; [intros v n; apply Hs|]. intros a Ha. discriminate.
Qed.

Lemma all_lookup fuel key current :
  P current -> keeps (all_nodes P) (lookup fuel key current) P.
Proof.
  intros Hc s r s' Hs E.
  pose proof (lookup_trace fuel key current s) as T. cbv zeta in T.
  rewrite E in T. cbn [fst snd] in T. destruct T as (Hw & _ & Hlast).
  split; [exact (all_nodes_world _ _ Hw Hs)|].
  intros a ->. destruct (Hlast a eq_refl) as [->|(u & peer & W & ->)].
  - exact Hc.
  - apply Hsnapshot. exact (Hs _ _ W).
Qed.

End AllNodes.

Section Pointers.

Variable m : Z.

Lemma wf_entry_stringify e : wf_entry m e -> wf_entry m (stringifyBigInt e).
Proof. intros H. exact H. Qed.

Lemma wf_pointers_snapshot peer :
  wf_pointers m peer -> wf_pointers m (node_of_info (info peer)).
Proof.
  intros (Hm & Hid & Hs & Hp & Hf). unfold wf_pointers. simpl.
  split; [exact Hm|]. split; [rewrite Hm; reflexivity|].
  split; [exact Hs|]. split.
  - intros p E. destruct (predecessor peer) as [q|]; simpl in E;
      [|discriminate]. injection E as <-.
    apply wf_entry_stringify, Hp. reflexivity.
  - intros i e E. rewrite list_lookup_fmap in E.
    destruct (fingerTable peer !! i) as [[q|]|] eqn:F; simpl in E;
      try discriminate. injection E as <-.
    apply wf_entry_stringify. exact (Hf _ _ F).
Qed.

Lemma lookup_repeat {A} (x y : A) n i : repeat x n !! i = Some y -> y = x.
Proof.
  revert i. induction n as [|n IH]; intros [|i]; simpl; try discriminate.
  - congruence.
  - apply IH.
Qed.

Lemma js_set_lookup l i v j e :
  js_set l i v !! j = Some (Some e) -> e = v \/ l !! j = Some (Some e).
Proof.
  unfold js_set. destruct (Nat.ltb_spec i (length l)) as [Hlt|Hge].
  - intros E. apply list_lookup_insert_Some in E.
    destruct E as [(_ & E & _)|(_ & E)].
    + left. congruence.
    + right. exact E.
  - intros E. apply lookup_app_Some in E. destruct E as [E|(_ & E)].
    + right. exact E.
    + apply lookup_app_Some in E. destruct E as [E|(_ & E)].
      * apply lookup_repeat in E. discriminate.
      * left. destruct (j - length l - length (repeat None (i - length l)))%nat
          as [|k]; simpl in E; [congruence|].
        rewrite lookup_nil in E. discriminate.
Qed.

Lemma wf_set_successor e n :
  wf_entry m e -> wf_pointers m n -> wf_pointers m (set_successor e n).
Proof. intros He (H1 & H2 & H3 & H4 & H5). repeat split; assumption. Qed.

Lemma wf_set_predecessor p n :
  (forall e, p = Some e -> wf_entry m e) ->
  wf_pointers m n -> wf_pointers m (set_predecessor p n).
Proof. intros He (H1 & H2 & H3 & H4 & H5). repeat split; assumption. Qed.

Lemma wf_set_finger i n :
  wf_pointers m n ->
  wf_pointers m (set_fingerTable (js_set (fingerTable n) i (successor n)) n).
Proof.
  intros (H1 & H2 & H3 & H4 & H5). repeat split; try assumption.
  intros j e E. cbn [fingerTable set_fingerTable] in E.
  destruct (js_set_lookup _ _ _ _ _ E) as [->|F]; [exact H3|exact (H5 _ _ F)].
Qed.

Lemma wf_set_finger_entry i v n :
  wf_entry m v -> wf_pointers m n ->
  wf_pointers m (set_fingerTable (js_set (fingerTable n) i v) n).
Proof.
  intros Hv (H1 & H2 & H3 & H4 & H5). repeat split; try assumption.
  intros j e E. cbn [fingerTable set_fingerTable] in E.
  destruct (js_set_lookup _ _ _ _ _ E) as [->|F]; [exact Hv|exact (H5 _ _ F)].
Qed.

Lemma wf_set_kvStore kv n :
  wf_pointers m n -> wf_pointers m (set_kvStore kv n).
Proof. intros H. exact H. Qed.

Lemma wf_notify_handler n body_id body_url :
  wf_pointers m n -> wf_pointers m (notify_handler n body_id body_url).
Proof.
  intros H. unfold notify_handler, notify.
  assert (He : wf_entry m (mkEntry (Big (hashToID body_url (node_m n))) body_url)).
  { destruct H as (Hm & _). unfold wf_entry. simpl. rewrite Hm. reflexivity. }
  destruct (predecessor n); [destruct (inInterval _ _ _ _)|]; try exact H;
    apply wf_set_predecessor; try exact H;
    intros e E; inversion E; subst; exact He.
Qed.

Lemma wf_new_Node u si :
  wf_pointers m (new_Node u m si).
Proof.
  unfold wf_pointers, new_Node. simpl. repeat split.
  - intros p E. discriminate.
  - intros i e E. apply lookup_repeat in E. discriminate.
Qed.

Lemma wf_findSuccessor fuel this keyStr :
  wf_pointers m this ->
  keeps (all_nodes (wf_pointers m)) (findSuccessor fuel this keyStr)
        (wf_entry m).
Proof.
  intros Hthis. unfold findSuccessor.
  eapply keeps_bind;
    [apply all_lookup; [exact wf_pointers_snapshot|exact Hthis]|].
  intros a Ha. apply keeps_ret. destruct Ha as (_ & _ & H & _). exact H.
Qed.

Lemma wf_join fuel me existingNodeUrl :
  keeps (all_nodes (wf_pointers m)) (join fuel me existingNodeUrl)
        (fun _ => True).
Proof.
  unfold join. eapply keeps_bind; [apply all_get_node|].
  intros this Hthis. eapply keeps_bind with (Q := fun _ => True).
  - destruct existingNodeUrl as [existing|].
    + eapply keeps_bind;
        [apply all_fetchNodeInfo; exact wf_pointers_snapshot|].
      intros peer Hpeer.
      eapply keeps_bind; [apply wf_findSuccessor, Hpeer|].
      intros succ Hsucc.
      eapply keeps_bind with (Q := fun _ => True).
      * apply all_modify_node. intros n Hn.
        apply wf_set_predecessor; [|exact Hn]. intros e E. discriminate.
      * intros _ _. apply all_modify_node. intros n Hn.
        apply wf_set_successor; assumption.
    + assert (Hself : wf_entry m (self_entry this)).
      { destruct Hthis as (_ & Hid & _). exact Hid. }
      eapply keeps_bind with (Q := fun _ => True).
      * apply all_modify_node. intros n Hn.
        apply wf_set_predecessor; [|exact Hn].
        intros e E. inversion E; subst. exact Hself.
      * intros _ _. apply all_modify_node. intros n Hn.
        apply wf_set_successor; assumption.
  - intros _ _. apply all_modify_node. intros n Hn. apply wf_set_finger, Hn.
Qed.

Lemma wf_post_notify to body_id body_url :
  keeps (all_nodes (wf_pointers m)) (post_notify to body_id body_url)
        (fun _ => True).
Proof.
  intros s r s' Hs E. unfold post_notify, bind, send in E. cbn [world log] in E.
  destruct (world s !! to) as [peer|] eqn:W; inversion E; subst.
  - split; [|auto]. apply all_nodes_insert; [exact Hs|].
    apply wf_notify_handler. exact (Hs _ _ W).
  - split; [|intros a Ha; discriminate].
    intros u n. apply Hs.
Qed.

Lemma wf_stabilize me :
  keeps (all_nodes (wf_pointers m)) (stabilize me) (fun _ => True).
Proof.
  unfold stabilize. eapply keeps_bind; [apply all_get_node|].
  intros this _. destruct (_ && _); [apply keeps_ret; exact Logic.I|].
  eapply keeps_bind; [apply all_fetchNodeInfo; exact wf_pointers_snapshot|].
  intros successorNode Hsn.
  eapply keeps_bind with (Q := fun _ => True).
  - destruct (predecessor successorNode) as [x'|] eqn:X;
      [|apply keeps_ret; exact Logic.I].
    destruct (inInterval _ _ _ _); [|apply keeps_ret; exact Logic.I].
    apply all_modify_node. intros n Hn.
    apply wf_set_successor; [|exact Hn].
    destruct Hsn as (_ & _ & _ & Hp & _). exact (Hp _ X).
  - intros _ _. eapply keeps_bind; [apply all_get_node|].
    intros this' _. apply wf_post_notify.
Qed.

Lemma wf_fixFingers fuel me random :
  keeps (all_nodes (wf_pointers m)) (fixFingers fuel me random)
        (fun _ => True).
Proof.
  unfold fixFingers. eapply keeps_bind; [apply all_get_node|].
  intros this Hthis. eapply keeps_bind with (Q := fun _ => True).
  - unfold js_rem. destruct (_ =? _).
    + intros s r s' Hs E. unfold throw in E. inversion E; subst.
      split; [exact Hs|]. intros a Ha. discriminate.
    + apply keeps_ret. exact Logic.I.
  - intros start _.
    eapply keeps_bind; [apply wf_findSuccessor, Hthis|].
    intros successor Hsucc. apply all_modify_node. intros n Hn.
    apply wf_set_finger_entry; assumption.
Qed.

Lemma wf_put hops fuel key value :
  forall me ttl_,
    keeps (all_nodes (wf_pointers m)) (put hops fuel me key value ttl_)
          (fun _ => True).
Proof.
  induction hops as [|hops IH]; intros me ttl_.
  - cbn [put]. destruct (_ <=? 0); [apply keeps_ret; exact Logic.I|].
    eapply keeps_bind; [apply all_get_node|]. intros node Hnode.
    eapply keeps_bind; [apply wf_findSuccessor, Hnode|]. intros successor _.
    destruct (String.eqb _ _).
    + eapply keeps_bind;
        [apply all_modify_node; intros n Hn; exact Hn|].
      intros _ _. apply keeps_ret. exact Logic.I.
    + eapply keeps_bind; [apply all_send|].
      intros _ _. eapply keeps_bind with (Q := fun _ => True).
      { intros s r s' Hs E. destruct (world s !! url successor);
          inversion E; subst; split; auto. }
      intros [data|error] _; apply keeps_ret; exact Logic.I.
  - cbn [put]. destruct (_ <=? 0); [apply keeps_ret; exact Logic.I|].
    eapply keeps_bind; [apply all_get_node|]. intros node Hnode.
    eapply keeps_bind; [apply wf_findSuccessor, Hnode|]. intros successor _.
    destruct (String.eqb _ _).
    + eapply keeps_bind;
        [apply all_modify_node; intros n Hn; exact Hn|].
      intros _ _. apply keeps_ret. exact Logic.I.
    + eapply keeps_bind; [apply all_send|].
      intros _ _. eapply keeps_bind with (Q := fun _ => True).
      { intros s r s' Hs E. destruct (world s !! url successor).
        - destruct (put hops fuel (url successor) key value _ s)
            as [r1 s1] eqn:Pt.
          inversion E; subst.
          destruct (IH _ _ _ _ _ Hs Pt) as [H1 _]. split; auto.
        - inversion E; subst. split; auto. }
      intros [data|error] _; apply keeps_ret; exact Logic.I.
Qed.

Lemma wf_run_op o s :
  starts_with_width m o ->
  all_nodes (wf_pointers m) s -> all_nodes (wf_pointers m) (run_op o s).
Proof.
  intros Ho Hs.
  assert (K : forall A (c : M A),
             keeps (all_nodes (wf_pointers m)) c (fun _ => True) ->
             all_nodes (wf_pointers m) (exec c s)).
  { intros A c Hc. unfold exec. destruct (c s) as [r s'] eqn:E.
    exact (proj1 (Hc _ _ _ Hs E)). }
  destruct o; cbn [run_op].
  - simpl in Ho. subst m0. unfold start.
    set (s0 := mkSt _ (log s)).
    assert (H0 : all_nodes (wf_pointers m) s0)
      by (apply all_nodes_insert; [exact Hs|apply wf_new_Node]).
    unfold exec. destruct (join 0 (localhost port) None s0) as [r s'] eqn:E.
    exact (proj1 (wf_join _ _ _ _ _ _ H0 E)).
  - intros u n. unfold kill. cbn [world]. intros E.
    apply lookup_delete_Some in E. destruct E as [_ E]. exact (Hs _ _ E).
  - apply K, wf_join.
  - apply K, wf_stabilize.
  - apply K, wf_fixFingers.
  - apply K. unfold tick. eapply keeps_bind; [apply wf_stabilize|].
    intros _ _. eapply keeps_bind; [apply wf_fixFingers|].
    intros _ _. apply keeps_ret. exact Logic.I.
  - apply K, wf_post_notify.
  - apply K, wf_put.
  - unfold exec. intros u n. rewrite get_world. apply Hs.
Qed.

End Pointers.

(** X20.  Every pointer names an address with the hash of that address.
    After any history in which the processes are started with the same
    width [m], each process has width [m] and the hash of its address as
    identifier, and its successor, its predecessor and each of its fingers
    carry, as a bigint or as a decimal string, the hash of the address
    they name. *)
Theorem pointers_are_hashes
  (m : Z) (ops : list Op) (u : string) (n : Node) :
  Forall (starts_with_width m) ops ->
  world (run ops) !! u = Some n ->
  wf_pointers m n.
Proof.
  intros Hops. revert u n. change (all_nodes (wf_pointers m) (run ops)).
  unfold run.
  assert (G : forall s, all_nodes (wf_pointers m) s ->
                all_nodes (wf_pointers m)
                  (fold_left (fun s o => run_op o s) ops s)).
  { induction Hops as [|o ops Ho _ IH]; intros s Hs; [exact Hs|].
    cbn [fold_left]. apply IH, wf_run_op; assumption. }
  apply G. intros u n E. cbn [world] in E. rewrite lookup_empty in E.
  discriminate.
Qed.

Lemma pointers_are_hashes_witness :
  let ops := [OpStart 5 3000; OpStart 5 3002;
              OpJoin 0 (localhost 3002) (Some (localhost 3000));
              OpStabilize (localhost 3002); OpStabilize (localhost 3000)] in
  let u := localhost 3000 in
  let n := node_at 3000 (run ops) in
  (Forall (starts_with_width 5) ops /\ world (run ops) !! u = Some n)
  /\ wf_pointers 5 n.
Proof.
  intros ops u n.
  assert (H1 : Forall (starts_with_width 5) ops)
    by (repeat constructor).
  assert (H2 : world (run ops) !! u = Some n) by (vm_compute; reflexivity).
  split; [split; assumption|].
  exact (pointers_are_hashes 5 ops u n H1 H2).
Defined.
